(** * Jordan form by the Weyr characteristic: a model of [Jordan/jordan.py]

    The Python module computes the Jordan canonical form of a square matrix
    with sympy.  The functions of [jordan.py] are translated one by one; the
    sympy primitives they call ([Matrix], [eye], [zeros], [row_join],
    [col_join], [+], [-], [*], [**], [rank], [eigenvals]) are modelled next
    to them.  Matrices are dense: a shape and the row-major list of entries,
    built from an entry function the way sympy's [_new(rows, cols, entry)]
    does.  The rank is the rank of linear algebra (MathComp's [\rank]). *)

From HB Require Import structures.
From mathcomp Require Import boot order algebra.

Set Implicit Arguments.
Unset Strict Implicit.
Unset Printing Implicit Defensive.

Import GRing.Theory Num.Theory Order.Theory.
Local Open Scope ring_scope.

(** ** Python results: a value, a raised exception, or a loop still running
    when the fuel of the model is spent *)

Inductive exn :=
  | ShapeError
  | NonSquareMatrixError
  | IndexError
  | AttributeError
  | MatrixError.

Inductive result (T : Type) :=
  | Ok of T
  | Raise of exn
  | OutOfFuel.

Arguments Raise {T} _.
Arguments OutOfFuel {T}.

Definition bind (T S : Type) (c : result T) (k : T -> result S) : result S :=
  match c with
  | Ok x => k x
  | Raise e => Raise e
  | OutOfFuel => OutOfFuel
  end.

Notation "x <-- c ;; k" := (bind c (fun x => k))
  (at level 61, c at next level, right associativity).

(** [for x in xs: s = body(x, s)] *)
Fixpoint for_ (T S : Type) (xs : seq T) (body : T -> S -> result S) (s : S)
  : result S :=
  if xs is x :: xs' then s' <-- body x s ;; for_ xs' body s' else Ok s.

(** [range(a, b)] for natural bounds *)
Definition range (a b : nat) : seq nat := iota a (b - a).

(** [l[i]] on a Python list: negative indices count from the end *)
Definition getitem (T : Type) (l : seq T) (i : int) : result T :=
  let k := match i with
           | Posz k => Some k
           | Negz k => if (k < size l)%N then Some (size l - k.+1)%N else None
           end in
  if k is Some k' then
    if ohead (drop k' l) is Some x then Ok x else Raise IndexError
  else Raise IndexError.

(** [l[i] = x] on a Python list, for a natural index *)
Definition setitem (T : Type) (l : seq T) (i : nat) (x : T) : result (seq T) :=
  if (i < size l)%N then Ok (take i l ++ x :: drop i.+1 l) else Raise IndexError.

Section Sympy.

Variable F : fieldType.

(** ** sympy's dense matrices *)

Record Matrix := Mx { rows : nat; cols : nat; flat : seq F }.

Definition Matrix_to_tuple (A : Matrix) := (rows A, cols A, flat A).
Definition tuple_to_Matrix (t : nat * nat * seq F) := Mx t.1.1 t.1.2 t.2.
Lemma Matrix_tupleK : cancel Matrix_to_tuple tuple_to_Matrix.
Proof. by case. Qed.
HB.instance Definition _ := Equality.copy Matrix (can_type Matrix_tupleK).

(** [A[i, j]] for indices inside the shape *)
Definition get (A : Matrix) (i j : nat) : F :=
  nth 0 (flat A) (i * cols A + j).

(** [Matrix._new(r, c, entry)] *)
Definition mk (r c : nat) (entry : nat -> nat -> F) : Matrix :=
  Mx r c [seq entry i j | i <- iota 0 r, j <- iota 0 c].

(** the invariant of every sympy matrix *)
Definition wf (A : Matrix) : bool := size (flat A) == (rows A * cols A)%N.

(** [Matrix(l)] for a flat Python list [l]: a column vector, and the empty
    matrix for the empty list *)
Definition Matrix_of_list (l : seq F) : Matrix :=
  if l is [::] then Mx 0 0 [::] else Mx (size l) 1 l.

Definition eye (n : nat) : Matrix := mk n n (fun i j => (i == j)%:R).

Definition zeros (r c : nat) : Matrix := mk r c (fun _ _ => 0).

(** [c * A] *)
Definition scal (c : F) (A : Matrix) : Matrix :=
  mk (rows A) (cols A) (fun i j => c * get A i j).

(** [A + B] *)
Definition add (A B : Matrix) : result Matrix :=
  if (rows A == rows B) && (cols A == cols B)
  then Ok (mk (rows A) (cols A) (fun i j => get A i j + get B i j))
  else Raise ShapeError.

(** [A - B] *)
Definition sub (A B : Matrix) : result Matrix :=
  if (rows A == rows B) && (cols A == cols B)
  then Ok (mk (rows A) (cols A) (fun i j => get A i j - get B i j))
  else Raise ShapeError.

(** [A * B] for two matrices *)
Definition mul (A B : Matrix) : result Matrix :=
  if cols A == rows B
  then Ok (mk (rows A) (cols B)
             (fun i j => \sum_(0 <= k < cols A) get A i k * get B k j))
  else Raise ShapeError.

(** [A ** p] for a natural exponent: the [p]-fold product, the identity for
    [p = 0] *)
Fixpoint pow_loop (A : Matrix) (p : nat) : result Matrix :=
  if p is p'.+1 then P <-- pow_loop A p' ;; mul P A else Ok (eye (rows A)).

Definition pow (A : Matrix) (p : nat) : result Matrix :=
  if rows A != cols A then Raise NonSquareMatrixError else pow_loop A p.

(** [A.row_join(B)]; a matrix without columns takes the row count of [B] *)
Definition eval_row_join (A B : Matrix) : Matrix :=
  mk (rows A) (cols A + cols B)
     (fun i j => if (j < cols A)%N then get A i j else get B i (j - cols A)).

Definition row_join (A B : Matrix) : result Matrix :=
  if (cols A == 0%N) && (rows A != rows B)
  then Ok (eval_row_join (mk (rows B) 0 (fun _ _ => 0)) B)
  else if rows A != rows B then Raise ShapeError
  else Ok (eval_row_join A B).

(** [A.col_join(B)]; a matrix without rows takes the column count of [B] *)
Definition eval_col_join (A B : Matrix) : Matrix :=
  mk (rows A + rows B) (cols A)
     (fun i j => if (i < rows A)%N then get A i j else get B (i - rows A) j).

Definition col_join (A B : Matrix) : result Matrix :=
  if (rows A == 0%N) && (cols A != cols B)
  then Ok (eval_col_join (mk 0 (cols B) (fun _ _ => 0)) B)
  else if cols A != cols B then Raise ShapeError
  else Ok (eval_col_join A B).

(** the matrix of linear algebra behind a dense matrix *)
Definition mx_of (m n : nat) (A : Matrix) : 'M[F]_(m, n) :=
  \matrix_(i, j) get A i j.

(** [A.rank()] *)
Definition rank (A : Matrix) : int :=
  Posz (\rank (mx_of (rows A) (cols A) A)).

(** ** Python values held by the lists of [jordan.py]: a matrix or [None] *)

Inductive value := VNone | VMat of Matrix.

(** ** [jordan.py] *)

Fixpoint stabilize_loop (fuel : nat) (A : Matrix) (eigenval : F)
    (r : seq int) (p : nat) : result (seq int) :=
  if fuel is fuel'.+1 then
    D <-- sub A (scal eigenval (eye (rows A))) ;;
    P <-- pow D p ;;
    let rank := rank P in
    let r := rcons r rank in
    x <-- getitem r (p%:Z - 1) ;;
    if (rank == x) && (p != 0%N) then Ok r
    else stabilize_loop fuel' A eigenval r p.+1
  else OutOfFuel.

Definition stabilize_ranks (fuel : nat) (A : Matrix) (eigenval : F)
  : result (seq int) :=
  stabilize_loop fuel A eigenval [::] 0.

Definition weyr (r : seq int) : result (seq int) :=
  w <-- for_ (range 1 (size r))
          (fun p w =>
             a <-- getitem r (p%:Z - 1) ;;
             b <-- getitem r p%:Z ;;
             Ok (rcons w (a - b)))
          [::] ;;
  Ok (rcons w 0).

Definition concat_vec (v : seq Matrix) : result Matrix :=
  M <-- getitem v 0 ;;
  for_ (range 1 (size v))
    (fun i M => vi <-- getitem v i%:Z ;; row_join M vi)
    M.

Definition get_super (n : nat) : result Matrix :=
  let v := [:: Matrix_of_list (nseq n 0)] in
  v <-- for_ (range 0 (n - 1))
          (fun i v =>
             v_i <-- setitem (nseq n 0) i 1 ;;
             Ok (rcons v (Matrix_of_list v_i)))
          v ;;
  concat_vec v.

Definition direct_summand (A B : value) : result value :=
  match A, B with
  | VMat a, VMat b =>
      let lower_zero := zeros (rows b) (cols a) in
      let upper_zero := zeros (cols a) (rows b) in
      upper <-- row_join a upper_zero ;;
      lower <-- row_join lower_zero b ;;
      M <-- col_join upper lower ;;
      Ok (VMat M)
  | _, _ => Raise AttributeError
  end.

Definition many_summand (ml : seq value) : result value :=
  if size ml == 1%N then getitem ml 0
  else if (1 < size ml)%N then
    ml0 <-- getitem ml 0 ;;
    ml1 <-- getitem ml 1 ;;
    M <-- direct_summand ml0 ml1 ;;
    for_ (range 2 (size ml))
      (fun i M => mli <-- getitem ml i%:Z ;; direct_summand M mli)
      M
  else Ok VNone.

Definition jordan_block (eigenval : F) (n : nat) : result Matrix :=
  S <-- get_super n ;;
  add (scal eigenval (eye n)) S.

(** the list [blocks] that [create_blocks] hands to [many_summand] *)
Definition create_blocks_list (weyr : seq int) (eigenval : F)
  : result (seq value) :=
  block_info <-- for_ (range 1 (size weyr))
                   (fun i block_info =>
                      a <-- getitem weyr (i%:Z - 1) ;;
                      b <-- getitem weyr i%:Z ;;
                      Ok (rcons block_info (a - b)))
                   [::] ;;
  for_ (rev (range 0 (size block_info)))
    (fun i blocks =>
       bi <-- getitem block_info i%:Z ;;
       if 0 < bi then
         for_ (range 0 `|bi|)
           (fun _ blocks =>
              block <-- jordan_block eigenval i.+1 ;;
              Ok (rcons blocks (VMat block)))
           blocks
       else Ok blocks)
    [::].

Definition create_blocks (weyr : seq int) (eigenval : F) : result value :=
  blocks <-- create_blocks_list weyr eigenval ;;
  many_summand blocks.

(** [A.eigenvals()]: the dictionary of the eigenvalues with their
    multiplicities, in the order of its keys *)
Variable eigenvals : Matrix -> result (seq (F * nat)).

Definition jordan_form (fuel : nat) (A : Matrix) : result value :=
  eigenvals <-- eigenvals A ;;
  vals <-- for_ eigenvals (fun kv vals => Ok (rcons vals kv.1)) [::] ;;
  blocks <-- for_ vals
               (fun e blocks =>
                  r <-- stabilize_ranks fuel A e ;;
                  w <-- weyr r ;;
                  e_m <-- create_blocks w e ;;
                  Ok (rcons blocks e_m))
               [::] ;;
  if (1 < size blocks)%N then many_summand blocks else getitem blocks 0.

(** ** Definitions used to state what the functions compute *)

(** the left fold of a fallible operation, in the order of the list *)
Fixpoint foldl_result (T S : Type) (f : S -> T -> result S) (z : S)
    (xs : seq T) : result S :=
  if xs is x :: xs' then z' <-- f z x ;; foldl_result f z' xs' else Ok z.

(** the list of the differences [l[p-1] - l[p]] for [p] in
    [range(1, len(l))], which [weyr] and [create_blocks] both compute *)
Definition diffs (l : seq int) : seq int :=
  [seq nth 0 l p.-1 - nth 0 l p | p <- range 1 (size l)].

(** [v_i = [0]*n; v_i[i] = 1] *)
Definition unit_list (n i : nat) : seq F :=
  take i (nseq n 0) ++ 1 :: drop i.+1 (nseq n 0).

Definition super_entry (i j : nat) : F := (i.+1 == j)%:R.

(** the entries of a Jordan block: the eigenvalue on the diagonal, 1 on the
    superdiagonal, 0 elsewhere *)
Definition jordan_entry (eigenval : F) (i j : nat) : F :=
  if i == j then eigenval else if j == i.+1 then 1 else 0.

Definition square (A : Matrix) : bool := rows A == cols A.

(** the entries of the block matrix [[A, 0], [0, B]] *)
Definition block_entry (A B : Matrix) (i j : nat) : F :=
  if (i < rows A)%N then (if (j < cols A)%N then get A i j else 0)
  else (if (j < cols A)%N then 0 else get B (i - rows A) (j - cols A)).

Definition block_diag (A B : Matrix) : Matrix :=
  mk (rows A + rows B) (cols A + cols B) (block_entry A B).

Definition value_to_option (v : value) : option Matrix :=
  if v is VMat M then Some M else None.
Definition option_to_value (o : option Matrix) : value :=
  if o is Some M then VMat M else VNone.
Lemma value_optionK : cancel value_to_option option_to_value.
Proof. by case. Qed.
HB.instance Definition _ := Equality.copy value (can_type value_optionK).

(** the number of blocks the loop of [create_blocks] appends for the
    difference [bi]: [range(bi)] runs [bi] times when [bi > 0], and the
    guard [if block_info[i] > 0] skips the rest *)
Definition block_count (bi : int) : nat := if 0 < bi then `|bi|%N else 0%N.

Definition JB (eigenval : F) (n : nat) : Matrix := mk n n (jordan_entry eigenval).

Definition blocks_of (w : seq int) (eigenval : F) : seq value :=
  flatten [seq nseq (block_count (nth 0 (diffs w) i)) (VMat (JB eigenval i.+1))
          | i <- rev (range 0 (size (diffs w)))].

Definition block_mats (w : seq int) (eigenval : F) : seq Matrix :=
  flatten [seq nseq (block_count (nth 0 (diffs w) i)) (JB eigenval i.+1)
          | i <- rev (range 0 (size (diffs w)))].

(** the powers of a square matrix and their ranks *)
Definition mxpow (n : nat) (B : 'M[F]_n) (p : nat) : 'M[F]_n :=
  iter p (fun X => X *m B) 1%:M.

Definition rho (n : nat) (B : 'M[F]_n) (p : nat) : nat := \rank (mxpow B p).

(** the list [r] after the ranks of the powers [0 .. p-1] were appended *)
Definition ranks (rk : nat -> nat) (p : nat) : seq int :=
  [seq Posz (rk i) | i <- iota 0 p].

(** the test [rank == r[p-1] and p != 0] at the power [p] *)
Definition stop (rk : nat -> nat) (p : nat) : bool :=
  (rk p == rk p.-1) && (p != 0%N).

(** the rank drop at the power [i]: an entry of the Weyr characteristic *)
Definition drop_at (rk : nat -> nat) (i : nat) : nat := (rk i - rk i.+1)%N.

(** the list that [weyr] returns on the ranks of the powers [0 .. k] *)
Definition weyr_of_ranks (rk : nat -> nat) (k : nat) : seq int :=
  rcons (diffs (ranks rk k.+1)) 0.

(** [A - eigenval * I] as a matrix of linear algebra *)
Definition shifted (A : Matrix) (eigenval : F) : 'M[F]_(rows A) :=
  mx_of (rows A) (rows A) A - eigenval%:M.

(** the eigenvalue collaborator is exact on [A] when the dictionary it
    returns lists distinct values with positive multiplicities and the
    characteristic polynomial of [A] is the product of the corresponding
    linear factors *)
Definition eigenvals_exact (A : Matrix) (evs : seq (F * nat)) : Prop :=
  [/\ uniq [seq kv.1 | kv <- evs],
      all (fun kv => 0 < kv.2)%N evs
    & char_poly (mx_of (rows A) (rows A) A)
      = \prod_(kv <- evs) ('X - kv.1%:P) ^+ kv.2].

(** what the body of the loop of [jordan_form] computes for one eigenvalue *)
Definition block_result (fuel : nat) (A : Matrix) (e : F) : result value :=
  r <-- stabilize_ranks fuel A e ;;
  w <-- weyr r ;;
  create_blocks w e.

(** the matrix of one eigenvalue, read off the result of the loop body *)
Definition block_value (fuel : nat) (A : Matrix) (e : F) : value :=
  if block_result fuel A e is Ok v then v else VNone.

Definition block_matrix (fuel : nat) (A : Matrix) (e : F) : Matrix :=
  if block_value fuel A e is VMat M then M else Mx 0 0 [::].

Definition A_example : Matrix := Mx 2 2 [:: 2; 1; 0; 2].

(** the shape of a Jordan form: a square matrix with the diagonal entries
    in [P], the superdiagonal entries 0 or 1, and 0 everywhere else *)
Definition jordan_shape (P : pred F) (M : Matrix) : Prop :=
  [/\ square M,
      forall i, (i < rows M)%N -> P (get M i i),
      forall i, (i.+1 < rows M)%N ->
        (get M i i.+1 == 0) || (get M i i.+1 == 1)
    & forall i j, (i < rows M)%N -> (j < rows M)%N ->
        i != j -> j != i.+1 -> get M i j = 0].

(** ** The entries of a matrix built from an entry function *)

Lemma nth_allpairs_iota (f : nat -> nat -> F) (a r c i j : nat) :
  (i < r)%N -> (j < c)%N ->
  nth 0 [seq f x y | x <- iota a r, y <- iota 0 c] (i * c + j) = f (a + i)%N j.
Proof.
elim: r a i => [|r IH] a [|i] //= ltir ltjc.
  rewrite mul0n add0n addn0 nth_cat size_map size_iota ltjc.
  by rewrite (nth_map 0%N) ?size_iota // nth_iota // add0n.
rewrite nth_cat size_map size_iota mulSn -addnA ltnNge leq_addr /=.
by rewrite addKn IH // addSnnS.
Qed.

Lemma get_mk (r c : nat) (f : nat -> nat -> F) (i j : nat) :
  (i < r)%N -> (j < c)%N -> get (mk r c f) i j = f i j.
Proof. by move=> ltir ltjc; rewrite /get /= nth_allpairs_iota. Qed.

Lemma eq_mk (r c : nat) (f g : nat -> nat -> F) :
  (forall i j, (i < r)%N -> (j < c)%N -> f i j = g i j) -> mk r c f = mk r c g.
Proof.
move=> efg; congr Mx; apply/eq_in_allpairs => i j.
by rewrite !mem_iota !add0n /= => ltir ltjc; apply: efg.
Qed.

Lemma wf_mk (r c : nat) (f : nat -> nat -> F) : wf (mk r c f).
Proof. by rewrite /wf /= size_allpairs !size_iota. Qed.

Lemma mx_of_mk (r c : nat) (f : nat -> nat -> F) :
  mx_of r c (mk r c f) = \matrix_(i, j) f i j.
Proof. by apply/matrixP => i j; rewrite !mxE get_mk. Qed.

(** a well-formed matrix is rebuilt from its entries *)
Lemma mk_get (A : Matrix) : wf A -> mk (rows A) (cols A) (get A) = A.
Proof.
case: A => r c l /eqP /= sz; congr Mx.
apply: (@eq_from_nth _ 0); first by rewrite size_allpairs !size_iota.
rewrite size_allpairs !size_iota => k ltk.
have c_gt0 : (0 < c)%N by case: c ltk {sz} => //; rewrite muln0.
rewrite [in LHS](divn_eq k c) nth_allpairs_iota ?ltn_mod ?ltn_divLR //.
by rewrite add0n /get /= -divn_eq.
Qed.

(** ** Python lists and loops *)

Lemma getitem_nat (T : Type) (x0 : T) (l : seq T) (k : nat) :
  (k < size l)%N -> getitem l k%:Z = Ok (nth x0 l k).
Proof.
rewrite /getitem; elim: l k => [|x l IH] [|k] //= ltk.
by rewrite -(IH k).
Qed.

Lemma getitem_pred (T : Type) (x0 : T) (l : seq T) (k : nat) :
  (0 < k)%N -> (k <= size l)%N -> getitem l (k%:Z - 1) = Ok (nth x0 l k.-1).
Proof.
case: k => // k _ ltk; rewrite -[in LHS]addn1 PoszD addrK.
exact: getitem_nat.
Qed.

Lemma getitem_last (T : Type) (x0 : T) (l : seq T) (x : T) :
  getitem (rcons l x) (0%:Z - 1) = Ok x.
Proof.
rewrite sub0r /getitem /= size_rcons /= subn1 /= drop_rcons // drop_size.
by [].
Qed.

Lemma for_cat (T : eqType) (S : Type) (xs : seq T)
    (body : T -> seq S -> result (seq S)) (g : T -> seq S) (s : seq S) :
  (forall x s', x \in xs -> body x s' = Ok (s' ++ g x)) ->
  for_ xs body s = Ok (s ++ flatten [seq g x | x <- xs]).
Proof.
elim: xs s => [|x xs IH] s Hbody /=; first by rewrite cats0.
rewrite Hbody ?mem_head //= IH ?catA // => y s' y_xs.
by rewrite Hbody // inE y_xs orbT.
Qed.

Lemma for_rcons (T : eqType) (S : Type) (xs : seq T)
    (body : T -> seq S -> result (seq S)) (g : T -> S) (s : seq S) :
  (forall x s', x \in xs -> body x s' = Ok (rcons s' (g x))) ->
  for_ xs body s = Ok (s ++ [seq g x | x <- xs]).
Proof.
elim: xs s => [|x xs IH] s Hbody /=; first by rewrite cats0.
rewrite Hbody ?mem_head //= IH ?cat_rcons // => y s' y_xs.
by rewrite Hbody // inE y_xs orbT.
Qed.

Lemma mem_range (a b i : nat) : (i \in range a b) = (a <= i < b)%N.
Proof.
rewrite /range mem_iota; case: (leqP a i) => //= leai.
case: (leqP a b) => leab; first by rewrite subnKC.
rewrite (eqP (ltnW leab : (b - a)%N == 0%N)) addn0 ltnNge leai /=.
by symmetry; apply/negbTE; rewrite -leqNgt (leq_trans (ltnW leab)).
Qed.

Lemma for_diffs (l : seq int) :
  for_ (range 1 (size l))
    (fun p w =>
       a <-- getitem l (p%:Z - 1) ;; b <-- getitem l p%:Z ;; Ok (rcons w (a - b)))
    [::] = Ok (diffs l).
Proof.
rewrite (@for_rcons _ _ _ _ (fun p => nth 0 l p.-1 - nth 0 l p)) //.
move=> p w; rewrite mem_range => /andP[p_gt0 ltp].
by rewrite (getitem_pred 0) ?(ltnW ltp) //= (getitem_nat 0).
Qed.

Lemma size_diffs (l : seq int) : size (diffs l) = (size l).-1.
Proof. by rewrite /diffs size_map size_iota subn1. Qed.

Lemma nth_diffs (l : seq int) (p : nat) :
  (p.+1 < size l)%N -> nth 0 (diffs l) p = nth 0 l p - nth 0 l p.+1.
Proof.
move=> ltp; have ltp' : (p < size l - 1)%N by rewrite ltn_subRL add1n.
by rewrite /diffs (nth_map 0%N) ?size_iota // nth_iota // add1n.
Qed.

Lemma weyrE (r : seq int) : weyr r = Ok (rcons (diffs r) 0).
Proof. by rewrite /weyr for_diffs. Qed.

Lemma for_iota_getitem (T S : Type) (l1 l2 : seq T)
    (f : T -> S -> result S) (s : S) :
  for_ (iota (size l1) (size l2))
    (fun i s' => x <-- getitem (l1 ++ l2) i%:Z ;; f x s') s
  = for_ l2 f s.
Proof.
elim: l2 l1 s => [|x l2 IH] l1 s //=.
have -> : getitem (l1 ++ x :: l2) (size l1) = Ok x.
  by rewrite /getitem drop_size_cat.
rewrite /=; case: (f x s) => //= s'.
by rewrite -cat_rcons -(size_rcons l1 x) IH.
Qed.

Lemma for_range_getitem (T S : Type) (a : nat) (l : seq T)
    (f : T -> S -> result S) (s : S) :
  (a <= size l)%N ->
  for_ (range a (size l)) (fun i s' => x <-- getitem l i%:Z ;; f x s') s
  = for_ (drop a l) f s.
Proof.
move=> leal; rewrite /range -(size_drop a l) -[X in iota X](size_takel leal).
rewrite -[l in getitem l](cat_take_drop a l).
exact: for_iota_getitem.
Qed.

Lemma for_foldl (T S : Type) (f : S -> T -> result S) (xs : seq T) (z : S) :
  for_ xs (fun x acc => f acc x) z = foldl_result f z xs.
Proof. by elim: xs z => //= x xs IH z; case: (f z x). Qed.

Lemma concat_vec_cons (x : Matrix) (v : seq Matrix) :
  concat_vec (x :: v) = foldl_result row_join x v.
Proof.
rewrite /concat_vec /= (for_range_getitem (l := x :: v)) //= drop0.
exact: for_foldl.
Qed.

Lemma many_summand_cons (x : value) (ml : seq value) :
  many_summand (x :: ml) = foldl_result direct_summand x ml.
Proof.
case: ml => [|y ml] //; rewrite /many_summand /=.
case: (direct_summand x y) => //= M.
rewrite (for_range_getitem (l := [:: x, y & ml])) //= drop0.
exact: for_foldl.
Qed.

(** ** The superdiagonal and the Jordan block in closed form *)

Lemma size_unit_list (n i : nat) : (i < n)%N -> size (unit_list n i) = n.
Proof.
move=> ltin; rewrite /unit_list size_cat /= size_take size_drop size_nseq ltin.
by rewrite -subSn // subSS subnKC // ltnW.
Qed.

Lemma nth_unit_list (n i k : nat) :
  (i < n)%N -> nth 0 (unit_list n i) k = (k == i)%:R.
Proof.
move=> ltin; rewrite /unit_list nth_cat size_take size_nseq ltin.
case: (ltngtP k i) => [ltki|ltik|->].
- by rewrite nth_take // nth_nseq; case: ifP.
- rewrite -[(k - i)%N]prednK ?subn_gt0 //= nth_drop nth_nseq.
  by case: ifP.
- by rewrite subnn.
Qed.

Lemma col_vector_mk (l : seq F) (n : nat) :
  size l = n.+1 -> Matrix_of_list l = mk n.+1 1 (fun i _ => nth 0 l i).
Proof.
case: l => // x l [szl].
have wfl : wf (Matrix_of_list (x :: l)) by rewrite /wf /= muln1.
rewrite -[LHS](mk_get wfl) /= szl.
apply: eq_mk => i j _; rewrite ltnS leqn0 /get /= => /eqP->.
by rewrite muln1 addn0.
Qed.

Lemma row_join_col (n k : nat) (f : nat -> nat -> F) (l : seq F) :
  size l = n.+1 ->
  row_join (mk n.+1 k.+1 f) (Matrix_of_list l)
  = Ok (mk n.+1 k.+2 (fun i j => if (j < k.+1)%N then f i j else nth 0 l i)).
Proof.
move=> szl; rewrite (col_vector_mk szl) /row_join /= eqxx /= /eval_row_join /=.
rewrite addn1; congr Ok; apply: eq_mk => i j ltin ltjk.
case: ifP => ltj; first by rewrite get_mk.
by move: ltjk; rewrite ltnS leq_eqVlt ltj orbF => /eqP->; rewrite subnn get_mk.
Qed.

Lemma concat_unit_cols (n k m : nat) :
  (k + m <= n)%N ->
  foldl_result row_join (mk n.+1 k.+1 super_entry)
    [seq Matrix_of_list (unit_list n.+1 i) | i <- iota k m]
  = Ok (mk n.+1 (k + m).+1 super_entry).
Proof.
elim: m k => [|m IH] k /=; first by rewrite addn0.
rewrite addnS => ltkm.
have ltkn : (k < n.+1)%N by rewrite ltnS (leq_trans _ (ltnW ltkm)) // leq_addr.
rewrite row_join_col ?size_unit_list //=.
rewrite -addSn -IH //; congr foldl_result.
apply: eq_mk => i j _ ltj; case: ifP => // /negbT; rewrite -leqNgt => lekj.
have -> : j = k.+1 by apply/eqP; rewrite eqn_leq lekj andbT -ltnS.
by rewrite nth_unit_list // /super_entry eqSS.
Qed.

Lemma get_superE (n : nat) : get_super n = Ok (mk n n super_entry).
Proof.
rewrite /get_super.
rewrite (@for_rcons _ _ _ _ (fun i => Matrix_of_list (unit_list n i))) => [i v|].
  rewrite mem_range /setitem size_nseq subn1 => /andP[_ lti].
  by rewrite (leq_trans lti) ?leq_pred.
rewrite /= concat_vec_cons; case: n => [|n] //.
rewrite (@col_vector_mk _ n) ?size_nseq // /range subn0 subn1 [n.+1.-1]/=.
rewrite -[RHS](@concat_unit_cols n 0 n) ?add0n //; congr foldl_result.
by apply: eq_mk => i [|j] // _ _; rewrite nth_nseq /super_entry; case: ifP.
Qed.

Lemma jordan_blockE (eigenval : F) (n : nat) :
  jordan_block eigenval n = Ok (mk n n (jordan_entry eigenval)).
Proof.
rewrite /jordan_block get_superE /= /add /= !eqxx /=; congr Ok.
apply: eq_mk => i j ltin ltjn; rewrite /scal /eye /= !get_mk //.
rewrite /jordan_entry /super_entry [i.+1 == j]eq_sym.
case: (eqVneq i j) => [->|_]; last by rewrite mulr0 add0r; case: (j == _).
by rewrite mulr1 (ltn_eqF (ltnSn j)) addr0.
Qed.

(** ** Direct sums of square matrices *)

Lemma get_zeros (r c i j : nat) :
  (i < r)%N -> (j < c)%N -> get (zeros r c) i j = 0.
Proof. by move=> ltir ltjc; rewrite get_mk. Qed.

Lemma get_eval_row_join (A B : Matrix) (i j : nat) :
  (i < rows A)%N -> (j < cols A + cols B)%N ->
  get (eval_row_join A B) i j
  = if (j < cols A)%N then get A i j else get B i (j - cols A).
Proof. by move=> lti ltj; rewrite get_mk. Qed.

Lemma get_eval_col_join (A B : Matrix) (i j : nat) :
  (i < rows A + rows B)%N -> (j < cols A)%N ->
  get (eval_col_join A B) i j
  = if (i < rows A)%N then get A i j else get B (i - rows A) j.
Proof. by move=> lti ltj; rewrite get_mk. Qed.

Lemma direct_summand_square (A B : Matrix) :
  square A -> square B ->
  direct_summand (VMat A) (VMat B) = Ok (VMat (block_diag A B)).
Proof.
move=> /eqP sqA /eqP sqB; rewrite /direct_summand /row_join /col_join /=.
rewrite -sqA !eqxx andbF /= -sqA -sqB eqxx andbF /=; congr (Ok (VMat _)).
rewrite /eval_col_join /block_diag /= -sqA -sqB.
apply: eq_mk => i j lti ltj; rewrite /block_entry -sqA.
case: (ltnP i (rows A)) => ltiA.
  rewrite get_eval_row_join -?sqA //=.
  by case: (ltnP j (rows A)) => // leAj; rewrite get_zeros // ltn_subLR.
rewrite get_eval_row_join /= -?sqB ?ltn_subLR //.
by case: (ltnP j (rows A)) => // ltjA; rewrite get_zeros // ltn_subLR.
Qed.

Lemma square_block_diag (A B : Matrix) :
  square A -> square B -> square (block_diag A B).
Proof. by rewrite /square /= => /eqP-> /eqP->. Qed.

Arguments direct_summand : simpl never.

Lemma foldl_direct_summand_square (A : Matrix) (ms : seq Matrix) :
  square A -> all square ms ->
  exists M, [/\ foldl_result direct_summand (VMat A) [seq VMat B | B <- ms]
                = Ok (VMat M),
                square M & rows M = (rows A + sumn [seq rows B | B <- ms])%N].
Proof.
elim: ms A => [|B ms IH] A sqA /=.
  by move=> _; exists A; rewrite addn0.
move=> /andP[sqB sqms]; rewrite direct_summand_square //=.
have [M [-> sqM rowsM]] := IH _ (square_block_diag sqA sqB) sqms.
by exists M; split; rewrite // rowsM /= addnA.
Qed.

(** ** The blocks of one eigenvalue in closed form *)

Lemma map_iota_const (T : Type) (c : T) (a k : nat) :
  [seq c | _ <- iota a k] = nseq k c.
Proof. by elim: k a => //= k IH a; rewrite IH. Qed.

Lemma create_blocks_listE (w : seq int) (eigenval : F) :
  create_blocks_list w eigenval = Ok (blocks_of w eigenval).
Proof.
rewrite /create_blocks_list for_diffs /=.
rewrite (@for_cat _ _ _ _
  (fun i => nseq (block_count (nth 0 (diffs w) i)) (VMat (JB eigenval i.+1))))
  => [i blocks|//].
rewrite mem_rev mem_range /= => ltis; rewrite (getitem_nat 0) //=.
rewrite /block_count; case: ifP => _; last by rewrite cats0.
rewrite (@for_rcons _ _ _ _ (fun _ => VMat (JB eigenval i.+1))) => [j s _|].
  by rewrite jordan_blockE.
by rewrite /range subn0 map_iota_const.
Qed.

(** ** The ranks of the powers of a square matrix *)

Section RankSequence.

Variables (n : nat) (B : 'M[F]_n).

Local Notation mxpow := (mxpow B).
Local Notation rho := (rho B).

Lemma mxpowS (p : nat) : mxpow p.+1 = mxpow p *m B.
Proof. by []. Qed.

Lemma mxpow_comm (p : nat) : B *m mxpow p = mxpow p *m B.
Proof.
elim: p => [|p IH]; first by rewrite /mxpow /= mulmx1 mul1mx.
by rewrite mxpowS mulmxA IH.
Qed.

Lemma mxpowD (p q : nat) : mxpow (p + q) = mxpow p *m mxpow q.
Proof.
elim: q => [|q IH]; first by rewrite addn0 /mxpow /= mulmx1.
by rewrite addnS !mxpowS IH mulmxA.
Qed.

Lemma rho0 : rho 0 = n.
Proof. by rewrite /rho /mxpow /= mxrank1. Qed.

Lemma rho_le (p : nat) : (rho p.+1 <= rho p)%N.
Proof. by rewrite /rho mxpowS mxrankM_maxl. Qed.

Lemma rho_le_trans (p q : nat) : (p <= q)%N -> (rho q <= rho p)%N.
Proof.
move=> /subnKC <-; elim: (q - p)%N => [|d IH]; first by rewrite addn0.
by rewrite addnS (leq_trans (rho_le _)).
Qed.

Lemma rho_convex (p : nat) : (rho p.+1 + rho p.+1 <= rho p + rho p.+2)%N.
Proof.
have := mxrank_Frobenius B (mxpow p) B.
by rewrite mxpow_comm -!mxpowS.
Qed.

(** once two consecutive ranks agree, the ranks stay the same *)
Lemma rho_stable (k j : nat) : rho k.+1 = rho k -> rho (k + j) = rho k.
Proof.
move=> stab; suff H : rho (k + j).+1 = rho (k + j) /\ rho (k + j) = rho k by case: H.
elim: j => [|j [IH1 IH2]]; first by rewrite addn0.
rewrite addnS; split; last by rewrite IH1.
apply/eqP; rewrite eqn_leq rho_le /=.
by have := rho_convex (k + j); rewrite -IH1 leq_add2l.
Qed.

End RankSequence.

(** ** sympy's arithmetic and the matrices of linear algebra *)

Lemma mx_of_eye (n : nat) : mx_of n n (eye n) = 1%:M.
Proof. by apply/matrixP => i j; rewrite !mxE get_mk. Qed.

Lemma rank_dims (P : Matrix) (m n : nat) :
  rows P = m -> cols P = n -> rank P = Posz (\rank (mx_of m n P)).
Proof. by move=> <- <-. Qed.

Lemma sub_shifted (A : Matrix) (eigenval : F) :
  square A ->
  exists D, [/\ sub A (scal eigenval (eye (rows A))) = Ok D,
                rows D = rows A, cols D = rows A
              & mx_of (rows A) (rows A) D = shifted A eigenval].
Proof.
move=> /eqP sqA; rewrite /sub /= -sqA !eqxx /=.
eexists; split; [by [] | by [] | by [] |].
apply/matrixP => i j; rewrite /shifted !mxE get_mk ?get_mk //.
by rewrite mulr_natr.
Qed.

Lemma mul_square (n : nat) (P D : Matrix) :
  rows P = n -> cols P = n -> rows D = n -> cols D = n ->
  exists Q, [/\ mul P D = Ok Q, rows Q = n, cols Q = n
               & mx_of n n Q = mx_of n n P *m mx_of n n D].
Proof.
move=> rP cP rD cD; rewrite /mul rP cP rD cD eqxx.
eexists; split; [by [] | by [] | by [] |].
apply/matrixP => i j; rewrite !mxE get_mk // big_mkord.
by apply: eq_bigr => k _; rewrite !mxE.
Qed.

Lemma pow_loop_square (n : nat) (D : Matrix) (p : nat) :
  rows D = n -> cols D = n ->
  exists P, [/\ pow_loop D p = Ok P, rows P = n, cols P = n
               & mx_of n n P = mxpow (mx_of n n D) p].
Proof.
move=> rD cD; elim: p => [|p [P [eqP rP cP mxP]]] /=.
  by exists (eye (rows D)); rewrite /= rD mx_of_eye.
have [Q [eqQ rQ cQ mxQ]] := mul_square rP cP rD cD.
by exists Q; split; rewrite ?eqP //= mxQ mxP.
Qed.

(** the rank that [stabilize_ranks] computes at the power [p] *)
Lemma shifted_pow_rank (A : Matrix) (eigenval : F) (p : nat) :
  square A ->
  (D <-- sub A (scal eigenval (eye (rows A))) ;;
   P <-- pow D p ;;
   Ok (rank P)) = Ok (Posz (rho (shifted A eigenval) p)).
Proof.
move=> sqA; have [D [-> rD cD mxD]] := sub_shifted eigenval sqA.
rewrite /= /pow rD cD eqxx /=.
have [P [-> rP cP mxP]] := pow_loop_square p rD cD.
by rewrite /= (rank_dims rP cP) mxP mxD.
Qed.

(** ** The loop of [stabilize_ranks] *)

Lemma ranksS (rk : nat -> nat) (p : nat) :
  ranks rk p.+1 = rcons (ranks rk p) (Posz (rk p)).
Proof. by rewrite /ranks -addn1 iotaD add0n map_cat cats1. Qed.

Lemma size_ranks (rk : nat -> nat) (p : nat) : size (ranks rk p) = p.
Proof. by rewrite /ranks size_map size_iota. Qed.

Lemma nth_ranks (rk : nat -> nat) (p i : nat) :
  (i < p)%N -> nth 0 (ranks rk p) i = Posz (rk i).
Proof.
by move=> ltip; rewrite /ranks (nth_map 0%N) ?size_iota // nth_iota // add0n.
Qed.

Lemma stabilize_loop_step (fuel : nat) (A : Matrix) (eigenval : F) (p : nat) :
  square A ->
  let rk := rho (shifted A eigenval) in
  stabilize_loop fuel.+1 A eigenval (ranks rk p) p
  = if stop rk p then Ok (ranks rk p.+1)
    else stabilize_loop fuel A eigenval (ranks rk p.+1) p.+1.
Proof.
move=> sqA rk; have [D [eqD rD cD mxD]] := sub_shifted eigenval sqA.
have [P [eqP rP cP mxP]] := pow_loop_square p rD cD.
rewrite [LHS]/= eqD /= /pow rD cD eqxx /= eqP /= (rank_dims rP cP) mxP mxD.
rewrite -/rk -ranksS /stop; case: p {P eqP rP cP mxP} => [|p].
  by rewrite ranksS (getitem_last 0) /= andbF.
by rewrite (getitem_pred 0) ?size_ranks //= nth_ranks.
Qed.

Lemma stabilize_loop_run (A : Matrix) (eigenval : F) (k p fuel : nat) :
  square A ->
  let rk := rho (shifted A eigenval) in
  (p <= k)%N -> (forall j, (p <= j < k)%N -> ~~ stop rk j) -> stop rk k ->
  (k - p < fuel)%N ->
  stabilize_loop fuel A eigenval (ranks rk p) p = Ok (ranks rk k.+1).
Proof.
move=> sqA rk; elim: fuel p => [|fuel IH] p // lepk nostop stopk ltfuel.
rewrite stabilize_loop_step // -/rk.
move: lepk; rewrite leq_eqVlt => /orP[/eqP eqpk | ltpk].
  by rewrite eqpk stopk.
rewrite (negbTE (nostop p _)) ?leqnn //; apply: IH => //.
  by move=> j /andP[ltpj ltjk]; apply: nostop; rewrite (ltnW ltpj).
by rewrite subnS -ltnS prednK ?subn_gt0.
Qed.

(** ** A non-increasing sequence of naturals stops decreasing *)

Section FirstStop.

Variables (rk : nat -> nat) (n : nat).
Hypothesis rk0 : rk 0 = n.
Hypothesis rk_le : forall p, (rk p.+1 <= rk p)%N.

Lemma nostop_bound (m : nat) :
  (forall j, (0 < j <= m)%N -> ~~ stop rk j) -> (rk m + m <= n)%N.
Proof.
elim: m => [|m IH] nostop; first by rewrite addn0 rk0.
have ltm : (rk m.+1 < rk m)%N.
  have := nostop m.+1; rewrite /stop /= andbT ltnSn => /(_ isT) neq.
  by rewrite ltn_neqAle neq rk_le.
rewrite addnS; apply: (@leq_trans (rk m + m)); first by rewrite ltn_add2r.
apply: IH => j /andP[j_gt0 lejm].
by apply: nostop; rewrite j_gt0 (leq_trans lejm).
Qed.

Lemma first_stop :
  exists k, [/\ (0 < k <= n.+1)%N, stop rk k
              & forall j, (j < k)%N -> ~~ stop rk j].
Proof.
have [k0 stopk0 lek0] : exists2 k, stop rk k & (k <= n.+1)%N.
  case: (boolP (has (stop rk) (iota 0 n.+2))) => [/hasP[k]|/hasPn nostop].
    by rewrite mem_iota add0n ltnS /= => lek stopk; exists k.
  have := @nostop_bound n.+1; rewrite addnS ltnNge leq_addl => H.
  suff: false by []; apply: H => j /andP[_ lej].
  by apply: nostop; rewrite mem_iota add0n ltnS.
have exk : exists k, stop rk k by exists k0.
case: (ex_minnP exk) => k stopk mink; exists k; split=> //.
  rewrite (leq_trans (mink _ stopk0)) // andbT.
  by case: k stopk {mink} => //; rewrite /stop andbF.
by move=> j ltjk; apply: contraL ltjk => /mink; rewrite -leqNgt.
Qed.

End FirstStop.

(** [stabilize_ranks] returns the ranks of the powers [0 .. k], where [k] is
    the first power whose rank repeats the one before *)
Lemma stabilize_ranks_spec (A : Matrix) (eigenval : F) (fuel : nat) :
  square A -> ((rows A).+1 < fuel)%N ->
  let rk := rho (shifted A eigenval) in
  exists k, [/\ (0 < k <= (rows A).+1)%N, stop rk k,
                forall j, (j < k)%N -> ~~ stop rk j
              & stabilize_ranks fuel A eigenval = Ok (ranks rk k.+1)].
Proof.
move=> sqA ltfuel rk.
have [k [/andP[k_gt0 lek] stopk nostop]] :=
  first_stop (rho0 (shifted A eigenval)) (rho_le (shifted A eigenval)).
exists k; split=> //; first by rewrite k_gt0.
rewrite /stabilize_ranks -[ [::] ]/(ranks rk 0).
apply: (stabilize_loop_run sqA (leq0n k) _ stopk) => [j /andP[_ ltjk]|].
  exact: nostop.
by rewrite subn0 (leq_ltn_trans lek).
Qed.

(** ** The matrices handed to [many_summand] by [create_blocks] *)

Lemma blocks_ofE (w : seq int) (eigenval : F) :
  blocks_of w eigenval = [seq VMat M | M <- block_mats w eigenval].
Proof.
rewrite /blocks_of /block_mats map_flatten -map_comp; congr flatten.
by apply: eq_map => i /=; rewrite map_nseq.
Qed.

Lemma all_square_block_mats (w : seq int) (eigenval : F) :
  all square (block_mats w eigenval).
Proof.
apply/allP => M /flattenP[s /mapP[i _ ->]] /nseqP[-> _].
by rewrite /square /= eqxx.
Qed.

Lemma rows_block_mats (w : seq int) (eigenval : F) :
  sumn [seq rows M | M <- block_mats w eigenval]
  = sumn [seq (i.+1 * block_count (nth 0%R (diffs w) i))%N
         | i <- range 0 (size (diffs w))].
Proof.
rewrite /block_mats map_flatten sumn_flatten -!map_comp map_rev sumn_rev.
by congr sumn; apply: eq_map => i /=; rewrite map_nseq sumn_nseq.
Qed.

Lemma JB_inj (eigenval : F) (i j : nat) : JB eigenval i = JB eigenval j -> i = j.
Proof. by move/(congr1 rows). Qed.

Lemma sumn_pick (c : nat -> nat) (k m : nat) :
  sumn [seq ((i == k) * c i)%N | i <- iota 0 m]
  = if (k < m)%N then c k else 0%N.
Proof.
rewrite sumnE big_map -[X in iota 0 X]subn0 -/(index_iota 0 m).
rewrite (eq_bigr (fun i => if i == k then c i else 0%N)) => [i _|].
  by case: (i == k); rewrite ?mul1n ?mul0n.
by rewrite -big_mkcond big_nat1_eq.
Qed.

Lemma count_blocks_of (w : seq int) (eigenval : F) (k : nat) :
  count_mem (VMat (JB eigenval k.+1)) (blocks_of w eigenval)
  = if (k < size (diffs w))%N then block_count (nth 0 (diffs w) k) else 0%N.
Proof.
rewrite -(sumn_pick (fun i => block_count (nth 0 (diffs w) i))).
rewrite /blocks_of count_flatten -map_comp map_rev sumn_rev.
congr sumn; rewrite /range subn0; apply: eq_map => i /=.
rewrite count_nseq /=; congr (_ * _)%N; congr nat_of_bool.
apply/eqP/eqP => [|->//].
by move/(congr1 (fun v => if v is VMat M then rows M else 0%N)) => /= [->].
Qed.

Lemma many_summand_squares (M0 : Matrix) (ms : seq Matrix) :
  square M0 -> all square ms ->
  exists M, [/\ many_summand [seq VMat B | B <- M0 :: ms] = Ok (VMat M),
                square M & rows M = sumn [seq rows B | B <- M0 :: ms]].
Proof.
move=> sq0 sqms; rewrite [map _ _]/= many_summand_cons.
exact: foldl_direct_summand_square.
Qed.

(** ** Summing the sizes of the blocks of one eigenvalue *)

Section BlockTotal.

Variable rk : nat -> nat.
Hypothesis rk_le : forall p, (rk p.+1 <= rk p)%N.
Hypothesis rk_convex : forall p, (rk p.+1 + rk p.+1 <= rk p + rk p.+2)%N.

Local Notation drop_at := (drop_at rk).

Lemma drop_at_le (i : nat) : (drop_at i.+1 <= drop_at i)%N.
Proof.
rewrite /drop_at leq_subLR -(leq_add2r (rk i.+1)) -addnA subnK ?rk_le //.
by rewrite [(rk i.+2 + _)%N]addnC rk_convex.
Qed.

Lemma map_iotaS (T : Type) (f : nat -> T) (k : nat) :
  [seq f i | i <- iota 0 k.+1] = rcons [seq f i | i <- iota 0 k] (f k).
Proof. by rewrite -addn1 iotaD map_cat cats1 add0n. Qed.

Lemma sum_drop_at (k : nat) :
  (sumn [seq drop_at i | i <- iota 0 k] + rk k)%N = rk 0.
Proof.
elim: k => [|k IH] //; rewrite map_iotaS sumn_rcons -addnA.
by rewrite /drop_at subnK ?rk_le.
Qed.

Lemma abel_drop_at (k : nat) :
  (sumn [seq (i.+1 * (drop_at i - drop_at i.+1))%N | i <- iota 0 k]
   + k * drop_at k)%N
  = sumn [seq drop_at i | i <- iota 0 k].
Proof.
elim: k => [|k IH] //; rewrite !map_iotaS !sumn_rcons -IH.
rewrite -[LHS]addnA -[RHS]addnA -mulnDr subnK ?drop_at_le //.
by rewrite mulSn [(drop_at k + _)%N]addnC.
Qed.

End BlockTotal.

Section BlocksOfRanks.

Variables (rk : nat -> nat) (k : nat).
Hypothesis rk_le : forall p, (rk p.+1 <= rk p)%N.
Hypothesis rk_convex : forall p, (rk p.+1 + rk p.+1 <= rk p + rk p.+2)%N.
Hypothesis k_gt0 : (0 < k)%N.
Hypothesis stopk : stop rk k.

Local Notation weyr_of_ranks := (weyr_of_ranks rk k).

Lemma drop_at_stop : drop_at rk k = 0%N.
Proof.
case: k k_gt0 stopk => // k' _ /andP[/eqP /= stab _].
apply/eqP; rewrite /drop_at subn_eq0.
by have := rk_convex k'; rewrite -stab leq_add2l.
Qed.

Lemma size_weyr_of_ranks : size weyr_of_ranks = k.+1.
Proof. by rewrite /weyr_of_ranks size_rcons size_diffs size_ranks. Qed.

Lemma nth_weyr_of_ranks (j : nat) :
  (j <= k)%N -> nth 0 weyr_of_ranks j = Posz (drop_at rk j).
Proof.
rewrite /weyr_of_ranks nth_rcons size_diffs size_ranks /= leq_eqVlt.
case: (ltnP j k) => [ltjk _|lekj]; last first.
  by rewrite orbF => /eqP->; rewrite eqxx drop_at_stop.
rewrite nth_diffs ?size_ranks ?ltnS // !nth_ranks ?ltnS // ?(ltnW ltjk) //.
by rewrite /drop_at subzn ?rk_le.
Qed.

Lemma block_count_weyr_of_ranks (i : nat) :
  (i < k)%N ->
  block_count (nth 0 (diffs weyr_of_ranks) i)
  = (drop_at rk i - drop_at rk i.+1)%N.
Proof.
move=> ltik; rewrite nth_diffs ?size_weyr_of_ranks ?ltnS //.
rewrite !nth_weyr_of_ranks // ?(ltnW ltik) // subzn ?drop_at_le //.
by rewrite /block_count ltz_nat /=; case: (_ - _)%N.
Qed.

Lemma total_weyr_of_ranks :
  sumn [seq (i.+1 * block_count (nth 0%R (diffs weyr_of_ranks) i))%N
       | i <- range 0 (size (diffs weyr_of_ranks))]
  = (rk 0 - rk k)%N.
Proof.
rewrite size_diffs size_weyr_of_ranks /range subn0 /=.
rewrite -(sum_drop_at rk_le k) addnK -(abel_drop_at rk_le rk_convex).
rewrite drop_at_stop muln0 addn0; congr sumn; apply/eq_in_map => i.
by rewrite mem_iota add0n /= => /block_count_weyr_of_ranks->.
Qed.

End BlocksOfRanks.

(** ** Generalized eigenspaces: the ranks over all the eigenvalues *)

Lemma mxpowE (n' : nat) (B : 'M[F]_n'.+1) (p : nat) : mxpow B p = B ^+ p.
Proof.
by elim: p => [|p IH]; rewrite ?expr0 // mxpowS IH exprSr.
Qed.

Lemma rank_kermxpoly_XsubC (n : nat) (g : 'M[F]_n) (a : F) (m : nat) :
  \rank (kermxpoly g (('X - a%:P) ^+ m)) = (n - rho (g - a%:M) m)%N.
Proof.
case: n g => [|n'] g.
  by apply/eqP; rewrite sub0n -leqn0 rank_leq_row.
rewrite /kermxpoly rmorphXn /= rmorphB /= horner_mx_X horner_mx_C.
by rewrite mxrank_ker /rho mxpowE.
Qed.

(** the ranks of the powers are constant from the first repeated rank on *)
Lemma rho_stop (n : nat) (B : 'M[F]_n) (k N : nat) :
  (0 < k)%N -> stop (rho B) k -> (k.-1 <= N)%N -> rho B N = rho B k.
Proof.
case: k => // k _ /andP[/eqP /= stab _] lekN.
by rewrite -(subnKC lekN) (rho_stable _ stab) ?stab.
Qed.

Lemma rho_stable_dim (n : nat) (B : 'M[F]_n) (m : nat) :
  (rho B n <= rho B m)%N.
Proof.
have [k [/andP[k_gt0 lek] stopk _]] := first_stop (rho0 B) (rho_le B).
have lekn : (k.-1 <= n)%N by rewrite -ltnS prednK.
case: (leqP m n) => [|ltnm]; first exact: rho_le_trans.
by rewrite (rho_stop k_gt0 stopk lekn) -(rho_stop k_gt0 stopk (N := m)) // (leq_trans lekn) // ltnW.
Qed.

Lemma sum_rank_geigenspace (n : nat) (g : 'M[F]_n) (evs : seq (F * nat)) :
  uniq [seq kv.1 | kv <- evs] ->
  char_poly g = \prod_(kv <- evs) ('X - kv.1%:P) ^+ kv.2 ->
  (\sum_(kv <- evs) \rank (geigenspace g kv.1))%N = n.
Proof.
move=> uniq_evs char_g; pose x0 : F * nat := (0, 0%N).
pose a_ (i : 'I_(size evs)) := (nth x0 evs i).1.
pose m_ (i : 'I_(size evs)) := (nth x0 evs i).2.
have a_inj : {in predT &, injective a_}.
  move=> i j _ _; rewrite /a_ -!(nth_map x0 0 (fun kv => kv.1)) // => eq_ij.
  apply: val_inj; apply/eqP.
  by rewrite -(@nth_uniq _ 0 [seq kv.1 | kv <- evs]) ?size_map ?ltn_ord //; apply/eqP.
rewrite (big_nth x0) big_mkord.
have /mxdirectP /= <- := mxdirect_sum_geigenspace g a_inj.
apply/eqP; rewrite eqn_leq rank_leq_row /=.
case: n g char_g => [|n'] // g char_g.
have coprime_p : {in predT &, forall i j : 'I_(size evs), j != i ->
    coprimep (('X - (a_ i)%:P) ^+ m_ i) (('X - (a_ j)%:P) ^+ m_ j)}.
  move=> i j _ _ neq_ji; rewrite coprimep_expr ?coprimep_expl //.
  by rewrite coprimep_XsubC root_XsubC (inj_in_eq a_inj).
have /mxdirectP /= dxK := mxdirect_sum_kermx g coprime_p.
rewrite (big_nth x0) big_mkord in char_g.
have eqK : (kermxpoly g (char_poly g)
            :=: \sum_i kermxpoly g (('X - (a_ i)%:P) ^+ m_ i))%MS.
  rewrite char_g.
  exact: (@kermxpoly_prod _ _ g _ predT
            (fun i => ('X - (a_ i)%:P) ^+ m_ i) coprime_p).
have eq1 := kermxpoly_min (mxminpoly_dvd_char g).
have : \rank (kermxpoly g (char_poly g)) = n'.+1 by rewrite eq1 mxrank1.
rewrite eqK dxK => rankK.
have /mxdirectP /= -> := mxdirect_sum_geigenspace g a_inj.
rewrite -[X in (X <= _)%N]rankK.
apply: leq_sum => i _; rewrite /geigenspace !rank_kermxpoly_XsubC.
by rewrite leq_sub2l // rho_stable_dim.
Qed.

(** ** One eigenvalue: from the ranks to its block-diagonal matrix *)

Lemma shifted_geigenspace (A : Matrix) (e : F) :
  \rank (geigenspace (mx_of (rows A) (rows A) A) e)
  = (rows A - rho (shifted A e) (rows A))%N.
Proof. exact: rank_kermxpoly_XsubC. Qed.

Lemma create_blocks_mats (w : seq int) (e : F) :
  create_blocks w e = many_summand [seq VMat M | M <- block_mats w e].
Proof. by rewrite /create_blocks create_blocks_listE /= blocks_ofE. Qed.

Lemma block_result_spec (fuel : nat) (A : Matrix) (e : F) :
  square A -> ((rows A).+1 < fuel)%N ->
  (0 < \rank (geigenspace (mx_of (rows A) (rows A) A) e))%N ->
  exists M, [/\ block_result fuel A e = Ok (VMat M), square M
              & rows M = \rank (geigenspace (mx_of (rows A) (rows A) A) e)].
Proof.
move=> sqA ltfuel.
have [k [/andP[k_gt0 lek] stopk _ eq_r]] := stabilize_ranks_spec e sqA ltfuel.
have lekn : (k.-1 <= rows A)%N by rewrite -ltnS prednK.
rewrite shifted_geigenspace (rho_stop k_gt0 stopk lekn).
move: stopk eq_r; set rk := rho (shifted A e) => stopk eq_r.
rewrite -![X in (X - rk k)%N](rho0 (shifted A e)) -/rk.
rewrite /block_result eq_r /= weyrE /= -/(weyr_of_ranks rk k) create_blocks_mats.
have := rows_block_mats (weyr_of_ranks rk k) e.
rewrite (total_weyr_of_ranks (rho_le _) (@rho_convex _ _) k_gt0 stopk).
have := all_square_block_mats (weyr_of_ranks rk k) e.
case: (block_mats _ _) => [_ <- //|M0 ms /= /andP[sq0 sqms] <- _].
exact: many_summand_squares.
Qed.

(** ** All the eigenvalues: the assembly of [jordan_form] *)

Lemma root_prod_factors (evs : seq (F * nat)) (kv : F * nat) :
  kv \in evs -> (0 < kv.2)%N ->
  root (\prod_(kv' <- evs) ('X - kv'.1%:P) ^+ kv'.2) kv.1.
Proof.
elim: evs => [|kv0 evs IH] //; rewrite inE big_cons rootM.
case/orP => [/eqP<- m_gt0|kv_in m_gt0]; last by rewrite IH ?orbT.
by rewrite -(prednK m_gt0) root_exp_XsubC eqxx.
Qed.

Lemma geigenspace_pos (A : Matrix) (evs : seq (F * nat)) (kv : F * nat) :
  eigenvals_exact A evs -> kv \in evs ->
  (0 < \rank (geigenspace (mx_of (rows A) (rows A) A) kv.1))%N.
Proof.
move=> [_ /allP pos char_A] kv_in.
have: eigenvalue (mx_of (rows A) (rows A) A) kv.1.
  by rewrite eigenvalue_root_char char_A root_prod_factors // pos.
rewrite /eigenvalue -mxrank_eq0 -lt0n => rk_pos.
exact: leq_trans rk_pos (mxrankS (eigenspace_sub_geigen _ _)).
Qed.

Lemma jordan_form_vals (evs : seq (F * nat)) :
  for_ evs (fun kv vals => Ok (rcons vals kv.1)) [::]
  = Ok [seq kv.1 | kv <- evs].
Proof. by rewrite (@for_rcons _ _ _ _ (fun kv => kv.1)). Qed.

Lemma jordan_form_blocks (fuel : nat) (A : Matrix) (vals : seq F) :
  (forall e, e \in vals -> exists M, block_result fuel A e = Ok (VMat M)) ->
  for_ vals
    (fun e blocks =>
       r <-- stabilize_ranks fuel A e ;;
       w <-- weyr r ;;
       e_m <-- create_blocks w e ;;
       Ok (rcons blocks e_m))
    [::]
  = Ok [seq VMat (block_matrix fuel A e) | e <- vals].
Proof.
move=> okvals.
rewrite (@for_rcons _ _ _ _ (fun e => VMat (block_matrix fuel A e))) //.
move=> e blocks /okvals[M]; rewrite /block_matrix /block_value /block_result.
case: (stabilize_ranks fuel A e) => //= r; case: (weyr r) => //= w.
by move=> ->.
Qed.


Lemma block_matrix_spec (fuel : nat) (A : Matrix) (evs : seq (F * nat))
    (kv : F * nat) :
  square A -> ((rows A).+1 < fuel)%N -> eigenvals_exact A evs -> kv \in evs ->
  [/\ block_result fuel A kv.1 = Ok (VMat (block_matrix fuel A kv.1)),
      square (block_matrix fuel A kv.1)
    & rows (block_matrix fuel A kv.1)
      = \rank (geigenspace (mx_of (rows A) (rows A) A) kv.1)].
Proof.
move=> sqA ltfuel exact_evs kv_in.
have [M [eqM sqM rowsM]] :=
  block_result_spec sqA ltfuel (geigenspace_pos exact_evs kv_in).
by rewrite /block_matrix /block_value eqM.
Qed.

(** ** The example [[2, 1], [0, 2]] *)

Lemma shifted_example_entries (i j : 'I_2) :
  shifted A_example 2 i j = ((i == 0 :> nat) && (j == 1 :> nat))%:R.
Proof.
rewrite /shifted !mxE /get /=.
case: i => [[|[|i]]] // ?; case: j => [[|[|j]]] // ?; rewrite /= ?mulr1n ?mulr0n ?subrr ?subr0 //.
Qed.

Lemma shifted_example_sq : shifted A_example 2 *m shifted A_example 2 = 0.
Proof.
apply/matrixP => i j; rewrite !mxE big1 // => k _.
rewrite !shifted_example_entries.
by case: k => [[|[|k]]] // ?; rewrite /= ?andbF ?mulr0 ?mul0r.
Qed.

Lemma shifted_example_neq0 : shifted A_example 2 != 0.
Proof.
apply/eqP => /matrixP /(_ (@Ordinal 2 0 isT) (@Ordinal 2 1 isT)).
by rewrite shifted_example_entries mxE /=; apply/eqP; rewrite oner_neq0.
Qed.

Lemma rho_example :
  let rk := rho (shifted A_example 2) in
  [/\ rk 0%N = 2%N, rk 1%N = 1%N, rk 2%N = 0%N & rk 3%N = 0%N].
Proof.
move=> rk.
have rk0 : rk 0%N = 2%N by rewrite /rk rho0.
have rk2 : rk 2%N = 0%N.
  by rewrite /rk /rho /mxpow /= mul1mx shifted_example_sq mxrank0.
have rk3 : rk 3%N = 0%N.
  by have := rho_le (shifted A_example 2) 2; rewrite -/rk rk2 leqn0 => /eqP.
split=> //; apply/eqP; rewrite eqn_leq; apply/andP; split.
  have := rho_convex (shifted A_example 2) 0.
  by rewrite -/rk rk0 rk2 addn0 addnn -[2%N]/(1.*2) leq_double.
by rewrite /rk /rho /mxpow /= mul1mx lt0n mxrank_eq0 shifted_example_neq0.
Qed.

Lemma stabilize_ranks_example (fuel : nat) :
  (3 < fuel)%N ->
  stabilize_ranks fuel A_example 2 = Ok [:: 2; 1; 0; 0].
Proof.
move=> ltfuel; have [rk0 rk1 rk2 rk3] := rho_example.
have sqA : square A_example by [].
have -> : stabilize_ranks fuel A_example 2
          = Ok (ranks (rho (shifted A_example 2)) 4).
  apply: (@stabilize_loop_run A_example 2 3 0 fuel sqA) => //.
  - by case=> [|[|[|j]]] //= _; rewrite /stop /= ?rk0 ?rk1 ?rk2 ?andbF.
  - by rewrite /stop /= rk2 rk3.
by rewrite /ranks /= rk0 rk1 rk2 rk3.
Qed.

Lemma JB_example : JB 2 2 = A_example.
Proof. by rewrite /JB /mk /= /jordan_entry. Qed.

(** ** The claims about [many_summand], [weyr], [create_blocks] and
    [jordan_block] *)

(** Claim C8.  On a non-empty list [many_summand] is the left fold of
    [direct_summand] over the list, in order, started at the first matrix;
    on a one-element list it returns that element unchanged. *)
Theorem many_summand_left_fold :
  (forall (x : value) (ml : seq value),
     many_summand (x :: ml) = foldl_result direct_summand x ml)
  /\ (forall A : value, many_summand [:: A] = Ok A).
Proof. by split=> [x ml|A] //; apply: many_summand_cons. Qed.

Lemma flatten_nseq0 (T : eqType) (U : Type) (s : seq T) (c : T -> nat)
    (g : T -> U) :
  (forall i, i \in s -> c i = 0%N) ->
  flatten [seq nseq (c i) (g i) | i <- s] = [::].
Proof.
elim: s => [|x s IH] // c0; rewrite /= c0 ?mem_head //= IH // => i i_s.
by rewrite c0 // inE i_s orbT.
Qed.

Lemma block_mats_nopos (w : seq int) (eigenval : F) :
  (forall i, (0 < i < size w)%N -> nth 0 w i.-1 - nth 0 w i <= 0) ->
  block_mats w eigenval = [::].
Proof.
move=> nopos; apply: flatten_nseq0 => i.
rewrite mem_rev mem_range size_diffs /= => lti.
have lti' : (i.+1 < size w)%N by rewrite -ltn_predRL.
by rewrite /block_count nth_diffs // ltNge (nopos i.+1).
Qed.

(** Claim C10.  [many_summand] of the empty list returns [None] without
    raising, and so does [create_blocks] when none of the differences
    [w[i-1] - w[i]] is positive. *)
Theorem many_summand_empty_none :
  many_summand [::] = Ok VNone
  /\ (forall (w : seq int) (eigenval : F),
        (forall i, (0 < i < size w)%N -> nth 0 w i.-1 - nth 0 w i <= 0) ->
        create_blocks w eigenval = Ok VNone).
Proof.
by split=> // w e nopos; rewrite create_blocks_mats block_mats_nopos.
Qed.

(** Claim C4.  For a list [r] of length at least 2, [weyr r] has the length
    of [r], its entry at position [p-1] is [r[p-1] - r[p]] for
    [p = 1 .. len(r)-1], and its last entry is the appended 0. *)
Theorem weyr_differences (r : seq int) :
  (1 < size r)%N ->
  exists w,
    [/\ weyr r = Ok w, size w = size r,
        forall p, (0 < p < size r)%N ->
          nth 0 w p.-1 = nth 0 r p.-1 - nth 0 r p
      & nth 0 w (size r).-1 = 0].
Proof.
move=> lt1r; exists (rcons (diffs r) 0); rewrite weyrE; split=> //.
- by rewrite size_rcons size_diffs prednK // ltnW.
- move=> [|p] //= ltp.
  by rewrite nth_rcons size_diffs ltn_predRL ltp nth_diffs.
- by rewrite nth_rcons size_diffs ltnn eqxx.
Qed.

(** Claim C5.  [create_blocks] appends, for every [i] in [1 .. len(w)-1]
    with [bi = w[i-1] - w[i]], exactly [bi] Jordan blocks of size [i] when
    [bi > 0] and none otherwise; the list holds nothing else, the value
    returned is [many_summand] of exactly this list, and no exception is
    raised, whatever the signs of the differences. *)
Theorem create_blocks_counts (w : seq int) (eigenval : F) :
  exists blocks,
    [/\ create_blocks_list w eigenval = Ok blocks,
        forall i B,
          (0 < i < size w)%N -> jordan_block eigenval i = Ok B ->
          count_mem (VMat B) blocks
          = (if (0 < nth 0 w i.-1 - nth 0 w i)%R
             then absz (nth 0 w i.-1 - nth 0 w i)%R else 0%N),
        forall v, v \in blocks ->
          exists i B, [/\ (0 < i < size w)%N,
                          jordan_block eigenval i = Ok B & v = VMat B],
        create_blocks w eigenval = many_summand blocks
      & exists v, create_blocks w eigenval = Ok v].
Proof.
exists (blocks_of w eigenval); split; first exact: create_blocks_listE.
- move=> [|k] B //= ltk; rewrite jordan_blockE => -[<-].
  by rewrite -/(JB _ _) count_blocks_of size_diffs ltn_predRL ltk nth_diffs.
- move=> v /flattenP[s /mapP[k]]; rewrite mem_rev mem_range size_diffs /=.
  move=> ltk -> /nseqP[-> _]; exists k.+1, (JB eigenval k.+1).
  by rewrite jordan_blockE -ltn_predRL.
- by rewrite /create_blocks create_blocks_listE.
- rewrite create_blocks_mats; have := all_square_block_mats w eigenval.
  case: (block_mats _ _) => [_|M0 ms /= /andP[sq0 sqms]]; first by exists VNone.
  by have [M [eqM _ _]] := many_summand_squares sq0 sqms; exists (VMat M).
Qed.

(** Claim C6.  For [n >= 1], [jordan_block eigenval n] is the n x n matrix
    [eigenval * I + S]: the eigenvalue on the diagonal, 1 on the
    superdiagonal (entries [(i, i+1)]) and 0 elsewhere; for [n = 1] it is the
    1 x 1 matrix holding the eigenvalue. *)
Theorem jordan_block_entries (eigenval : F) (n : nat) :
  (0 < n)%N ->
  exists B,
    [/\ jordan_block eigenval n = Ok B,
        [/\ rows B = n, cols B = n & wf B],
        forall i j, (i < n)%N -> (j < n)%N ->
          get B i j = eigenval * (i == j)%:R + (j == i.+1)%:R,
        forall i j, (i < n)%N -> (j < n)%N ->
          get B i j = (if i == j then eigenval
                       else if j == i.+1 then 1 else 0)
      & n = 1%N -> B = Mx 1 1 [:: eigenval]].
Proof.
move=> n_gt0; exists (JB eigenval n); rewrite jordan_blockE; split=> //.
- by split=> //; apply: wf_mk.
- move=> i j lti ltj; rewrite get_mk // /jordan_entry.
  case: (eqVneq i j) => [->|_]; last by rewrite mulr0 add0r; case: (j == _).
  by rewrite mulr1 (ltn_eqF (ltnSn j)) addr0.
- by move=> i j lti ltj; rewrite get_mk.
- by move=> ->.
Qed.

(** ** The claims about [stabilize_ranks] *)

Lemma sorted_ranks (rk : nat -> nat) (p : nat) :
  (forall i, (rk i.+1 <= rk i)%N) ->
  sorted (fun x y : int => y <= x) (ranks rk p).
Proof.
move=> rk_le; apply/(sortedP 0) => i; rewrite size_ranks => lti.
by rewrite !nth_ranks ?(ltnW lti) // lez_nat.
Qed.

(** Claim C2.  For a square matrix [A] and any [eigenval] (an eigenvalue of
    [A] in particular) the loop of [stabilize_ranks] ends: with enough fuel
    (the dimension plus two iterations) it returns the list of the ranks of
    the powers of [A - eigenval * I], whose last two entries are equal. *)
Theorem stabilize_ranks_terminates (A : Matrix) (eigenval : F) (fuel : nat) :
  square A -> ((rows A).+1 < fuel)%N ->
  exists r,
    [/\ stabilize_ranks fuel A eigenval = Ok r, (1 < size r)%N,
        forall p, (p < size r)%N ->
          nth 0 r p = Posz (rho (shifted A eigenval) p)
      & nth 0 r (size r).-1 = nth 0 r (size r).-2].
Proof.
move=> sqA ltfuel.
have [k [/andP[k_gt0 _] /andP[/eqP stopk _] _ ->]] :=
  stabilize_ranks_spec eigenval sqA ltfuel.
exists (ranks (rho (shifted A eigenval)) k.+1); rewrite size_ranks.
split=> // [p ltp|]; first by rewrite nth_ranks.
by rewrite /= !nth_ranks ?ltnS ?leq_pred // stopk.
Qed.

(** Claim C7.  For a square matrix [A] and any [eigenval] (an eigenvalue of
    [A] in particular) the list returned by [stabilize_ranks] is
    non-increasing, starts with the dimension of [A] and is not empty. *)
Theorem stabilize_ranks_nonincreasing (A : Matrix) (eigenval : F)
    (fuel : nat) :
  square A -> ((rows A).+1 < fuel)%N ->
  exists r,
    [/\ stabilize_ranks fuel A eigenval = Ok r,
        sorted (fun x y : int => y <= x) r,
        nth 0 r 0 = Posz (rows A)
      & (0 < size r)%N].
Proof.
move=> sqA ltfuel.
have [k [_ _ _ ->]] := stabilize_ranks_spec eigenval sqA ltfuel.
exists (ranks (rho (shifted A eigenval)) k.+1); rewrite size_ranks.
split=> //; first exact/sorted_ranks/rho_le.
by rewrite nth_ranks // rho0.
Qed.

(** ** The claims about [direct_summand] and [jordan_form] *)

(** Claim C3, at an input where it fails.  For the 1 x 2 matrix [[0, 0]]
    and the 1 x 1 matrix [[0]] the claim promises the 2 x 3 block matrix;
    [direct_summand] builds the upper zero block with [A.shape[1]] rows and
    [B.shape[0]] columns, and [row_join] raises [ShapeError]. *)
Theorem direct_summand_nonsquare_raises :
  direct_summand (VMat (Mx 1 2 [:: 0; 0])) (VMat (Mx 1 1 [:: 0]))
  = Raise ShapeError.
Proof. by []. Qed.

(** Claim C9.  With the eigenvalue 2 of multiplicity 2 enumerated by the
    collaborator, [jordan_form] maps [[2, 1], [0, 2]] to itself. *)
Theorem jordan_form_example (fuel : nat) :
  (3 < fuel)%N ->
  eigenvals (Mx 2 2 [:: 2; 1; 0; 2]) = Ok [:: (2, 2%N)] ->
  jordan_form fuel (Mx 2 2 [:: 2; 1; 0; 2])
  = Ok (VMat (Mx 2 2 [:: 2; 1; 0; 2])).
Proof.
move=> ltfuel eq_ev; rewrite /jordan_form eq_ev /=.
rewrite -/A_example stabilize_ranks_example //=.
by rewrite /getitem /= /mk /= /get /= !mulr1 !mulr0 !addr0 add0r.
Qed.


(** ** Inputs at which the collaborator is exact *)

Lemma char_poly_tr (n : nat) (g : 'M[F]_n) : char_poly g^T = char_poly g.
Proof.
rewrite /char_poly -[RHS]det_tr; congr (\det _).
by apply/matrixP => i j; rewrite !mxE eq_sym.
Qed.

Lemma eigenvals_exact_example : eigenvals_exact A_example [:: (2, 2%N)].
Proof.
split=> //; rewrite big_cons big_nil mulr1 -char_poly_tr char_poly_trig.
  apply/is_trig_mxP => i j; rewrite !mxE /get /=.
  by case: i => [[|[|i]]] // ?; case: j => [[|[|j]]].
by rewrite !big_ord_recl big_ord0 mulr1 expr2 !mxE /get /=.
Qed.


Lemma jordan_form_no_eigenvalue (fuel : nat) (A : Matrix) :
  eigenvals A = Ok [::] -> jordan_form fuel A = Raise IndexError.
Proof. by rewrite /jordan_form => ->. Qed.

(** ** Further properties of the functions of [jordan.py] *)

Lemma foldl_row_join_cols (n k : nat) (f : nat -> nat -> F)
    (ls : seq (seq F)) :
  all (fun l => size l == n.+1) ls ->
  foldl_result row_join (mk n.+1 k.+1 f) [seq Matrix_of_list l | l <- ls]
  = Ok (mk n.+1 (k.+1 + size ls)
          (fun i j => if (j < k.+1)%N then f i j
                      else nth 0 (nth [::] ls (j - k.+1)) i)).
Proof.
elim: ls k f => [|l ls IH] k f /=.
  by move=> _; rewrite addn0; congr Ok; apply: eq_mk => i j _ ->.
move=> /andP[/eqP szl szls]; rewrite row_join_col //= IH // addSnnS.
congr Ok; apply: eq_mk => i j _ ltj.
case: (ltngtP j k.+1) => [ltjk|ltkj|->].
- by rewrite ltnS (ltnW ltjk).
- by rewrite ltnNge ltkj /= -[(j - k.+1)%N]prednK ?subn_gt0 //= -subnS.
- by rewrite ltnSn subnn.
Qed.

(** [concat_vec] of the column vectors built from [k >= 1] Python lists of
    one length [n >= 1] is the n x k matrix whose column [j] is the list
    number [j]. *)
Theorem concat_vec_columns (n : nat) (l0 : seq F) (ls : seq (seq F)) :
  all (fun l => size l == n.+1) (l0 :: ls) ->
  concat_vec [seq Matrix_of_list l | l <- l0 :: ls]
  = Ok (mk n.+1 (size ls).+1 (fun i j => nth 0 (nth [::] (l0 :: ls) j) i)).
Proof.
move=> /= /andP[/eqP sz0 szls]; rewrite concat_vec_cons (col_vector_mk sz0).
rewrite foldl_row_join_cols // add1n; congr Ok; apply: eq_mk => i [|j] //= _ _.
by rewrite subn1.
Qed.

(** [concat_vec] raises [IndexError] on the empty list, and [ShapeError]
    as soon as the second matrix has not the row count of the first (which
    has columns). *)
Theorem concat_vec_errors :
  concat_vec [::] = Raise IndexError
  /\ (forall (M1 M2 : Matrix) (v : seq Matrix),
        cols M1 != 0%N -> rows M1 != rows M2 ->
        concat_vec [:: M1, M2 & v] = Raise ShapeError).
Proof.
split=> // M1 M2 v /negbTE cols1 neq_rows.
by rewrite concat_vec_cons /= /row_join cols1 /= neq_rows.
Qed.

(** For square [A] and [B], [direct_summand] returns the block matrix
    [[A, 0], [0, B]] of [rows A + rows B] rows and [cols A + cols B]
    columns. *)
Theorem direct_summand_square_blocks (A B : Matrix) :
  square A -> square B ->
  exists M,
    [/\ direct_summand (VMat A) (VMat B) = Ok (VMat M),
        rows M = (rows A + rows B)%N,
        cols M = (cols A + cols B)%N,
        wf M
      & forall i j, (i < rows A + rows B)%N -> (j < cols A + cols B)%N ->
          get M i j
          = if (i < rows A)%N
            then (if (j < cols A)%N then get A i j else 0)
            else (if (j < cols A)%N then 0
                  else get B (i - rows A) (j - cols A))].
Proof.
move=> sqA sqB; exists (block_diag A B); rewrite direct_summand_square //.
by split=> //; [apply: wf_mk | move=> i j lti ltj; rewrite get_mk].
Qed.

Lemma block_diag_empty_r (A : Matrix) : wf A -> block_diag A (Mx 0 0 [::]) = A.
Proof.
move=> wfA; rewrite -[RHS](mk_get wfA) /block_diag /= !addn0.
by apply: eq_mk => i j lti ltj; rewrite /block_entry lti ltj.
Qed.

Lemma block_diag_empty_l (A : Matrix) : wf A -> block_diag (Mx 0 0 [::]) A = A.
Proof.
move=> wfA; rewrite -[RHS](mk_get wfA) /block_diag /= !add0n.
by apply: eq_mk => i j lti ltj; rewrite /block_entry /= !subn0.
Qed.

(** The empty matrix is a unit of [direct_summand] on the square matrices. *)
Theorem direct_summand_empty_unit (A : Matrix) :
  square A -> wf A ->
  direct_summand (VMat A) (VMat (zeros 0 0)) = Ok (VMat A)
  /\ direct_summand (VMat (zeros 0 0)) (VMat A) = Ok (VMat A).
Proof.
move=> sqA wfA; rewrite !direct_summand_square //.
by rewrite [zeros 0 0]/= block_diag_empty_r // block_diag_empty_l.
Qed.

Lemma foldl_direct_summand_none (A : Matrix) (ml : seq value) :
  square A -> VNone \in ml ->
  (forall M, VMat M \in ml -> square M) ->
  foldl_result direct_summand (VMat A) ml = Raise AttributeError.
Proof.
elim: ml A => [|[|B] ml IH] A sqA // none_in sq_ml.
have sqB : square B by rewrite sq_ml ?mem_head.
rewrite /= direct_summand_square //=.
apply: IH => [||M M_in]; first exact: square_block_diag.
  by move: none_in; rewrite inE.
by apply: sq_ml; rewrite inE M_in orbT.
Qed.

(** On a list of two or more entries, all of them [None] or square
    matrices and one of them [None], [many_summand] raises
    [AttributeError]. *)
Theorem many_summand_none_raises (ml : seq value) :
  (1 < size ml)%N -> VNone \in ml ->
  (forall M, VMat M \in ml -> square M) ->
  many_summand ml = Raise AttributeError.
Proof.
case: ml => [|[|A] [|y ml]] // _ none_in sq_ml; rewrite many_summand_cons.
apply: foldl_direct_summand_none => [||M M_in].
- by rewrite sq_ml ?mem_head.
- by move: none_in; rewrite inE.
- by apply: sq_ml; rewrite inE M_in orbT.
Qed.

(** On a non-empty list of square matrices [many_summand] returns a square
    matrix whose dimension is the sum of the dimensions. *)
Theorem many_summand_square_dims (M0 : Matrix) (ms : seq Matrix) :
  all square (M0 :: ms) ->
  exists M,
    [/\ many_summand [seq VMat B | B <- M0 :: ms] = Ok (VMat M),
        rows M = sumn [seq rows B | B <- M0 :: ms]
      & cols M = sumn [seq cols B | B <- M0 :: ms]].
Proof.
move=> /= /andP[sq0 sqms].
have [M [eqM sqM rowsM]] := many_summand_squares sq0 sqms.
exists M; split=> //; rewrite -(eqP sqM) rowsM /= (eqP sq0); congr (_ + _)%N.
by congr sumn; apply/eq_in_map => B /(allP sqms) /eqP.
Qed.

(** On a matrix that is not square [stabilize_ranks] raises [ShapeError]
    at the first subtraction [A - eigenval * eye(A.shape[0])]. *)
Theorem stabilize_ranks_nonsquare (A : Matrix) (eigenval : F) (fuel : nat) :
  ~~ square A -> (0 < fuel)%N ->
  stabilize_ranks fuel A eigenval = Raise ShapeError.
Proof.
case: fuel => // fuel /negbTE nsqA _.
by rewrite /stabilize_ranks /= /sub /= eqxx /= eq_sym [rows A == _]nsqA.
Qed.

(** The list returned by [stabilize_ranks] on a square matrix of dimension
    [n] has at most [n + 2] entries, all between 0 and [n], and is strictly
    decreasing up to its last entry, which repeats the one before. *)
Theorem stabilize_ranks_strict (A : Matrix) (eigenval : F) (fuel : nat) :
  square A -> ((rows A).+1 < fuel)%N ->
  exists r,
    [/\ stabilize_ranks fuel A eigenval = Ok r,
        (1 < size r <= (rows A).+2)%N,
        forall p, (p < size r)%N -> 0 <= nth 0 r p <= Posz (rows A),
        forall p, (p.+2 < size r)%N -> nth 0 r p.+1 < nth 0 r p
      & nth 0 r (size r).-1 = nth 0 r (size r).-2].
Proof.
move=> sqA ltfuel; set rk := rho (shifted A eigenval).
have [k [/andP[k_gt0 lek] /andP[/eqP stopk _] nostop ->]] :=
  stabilize_ranks_spec eigenval sqA ltfuel.
exists (ranks rk k.+1); rewrite size_ranks; split=> //.
- by rewrite !ltnS k_gt0 lek.
- move=> p ltp; rewrite nth_ranks // lez_nat /=.
  by rewrite -[X in (_ <= X)%N](rho0 (shifted A eigenval)) rho_le_trans.
- move=> p; rewrite ltnS => ltpk.
  have ltp1 : (p.+1 < k.+1)%N by rewrite ltnS ltnW.
  rewrite !nth_ranks ?(ltnW ltp1) // ltz_nat ltn_neqAle rho_le andbT.
  by have := nostop _ ltpk; rewrite /stop /= andbT.
- by rewrite /= !nth_ranks ?ltnS ?leq_pred // /rk stopk.
Qed.

Lemma rho1_not_eigenvalue (A : Matrix) (eigenval : F) :
  ~~ eigenvalue (mx_of (rows A) (rows A) A) eigenval ->
  rho (shifted A eigenval) 1 = rows A.
Proof.
rewrite /eigenvalue negbK /eigenspace -/(shifted A eigenval) => /eqP ker0.
have := mxrank_ker (shifted A eigenval); rewrite ker0 mxrank0 => /esym/eqP.
rewrite subn_eq0 /rho /mxpow /= mul1mx => le_n.
by apply/eqP; rewrite eqn_leq rank_leq_row.
Qed.

(** For a value that is not an eigenvalue of the square matrix [A],
    [stabilize_ranks] returns [[n, n]], [weyr] maps it to [[0, 0]] and
    [create_blocks] returns [None]: no block is built. *)
Theorem stabilize_ranks_not_eigenvalue (A : Matrix) (eigenval : F)
    (fuel : nat) :
  square A -> (1 < fuel)%N ->
  ~~ eigenvalue (mx_of (rows A) (rows A) A) eigenval ->
  [/\ stabilize_ranks fuel A eigenval = Ok [:: Posz (rows A); Posz (rows A)],
      weyr [:: Posz (rows A); Posz (rows A)] = Ok [:: 0; 0]
    & create_blocks [:: 0; 0] eigenval = Ok VNone].
Proof.
move=> sqA ltfuel /rho1_not_eigenvalue rk1.
have rk0 := rho0 (shifted A eigenval).
split; last by [].
  have -> : stabilize_ranks fuel A eigenval
            = Ok (ranks (rho (shifted A eigenval)) 2).
    apply: (@stabilize_loop_run A eigenval 1 0 fuel sqA) => //.
    - by case=> // _; rewrite /stop andbF.
    - by rewrite /stop /= rk0 rk1 eqxx.
  by rewrite /ranks /= rk0 rk1.
by rewrite weyrE /diffs /range /= subrr.
Qed.

Lemma diffs_cons2 (a b : int) (l : seq int) :
  diffs [:: a, b & l] = (a - b) :: diffs (b :: l).
Proof.
rewrite /diffs /range /= !subn1 /=; congr (_ :: _).
rewrite -[2%N]/(1 + 1)%N iotaDl -map_comp; apply/eq_in_map => p.
by rewrite mem_iota => /andP[]; case: p.
Qed.

Lemma sum_diffs (a : int) (l : seq int) :
  \sum_(x <- diffs (a :: l)) x = a - last a l.
Proof.
elim: l a => [|b l IH] a; first by rewrite /diffs /= big_nil subrr.
by rewrite diffs_cons2 big_cons IH /= addrA subrK.
Qed.

(** [weyr] never returns the empty list: its result has the length of [r],
    or length 1 for the empty [r]; and its entries sum to the first entry
    of [r] minus the last one. *)
Theorem weyr_size_sum (r : seq int) :
  exists w,
    [/\ weyr r = Ok w, size w = maxn (size r) 1
      & \sum_(x <- w) x = nth 0 r 0 - nth 0 r (size r).-1].
Proof.
exists (rcons (diffs r) 0); rewrite weyrE size_rcons size_diffs; split=> //.
  by case: (size r) => [|[|n]] //=; rewrite maxnE.
rewrite -cats1 big_cat big_seq1 /= addr0; case: r => [|a l].
  by rewrite /diffs big_nil subrr.
by rewrite sum_diffs /= (last_nth 0).
Qed.

(** The list that [jordan_form] passes from [weyr] to [create_blocks] is
    non-increasing and non-negative: on the ranks returned by
    [stabilize_ranks] for a square matrix no difference [w[i-1] - w[i]] is
    negative, so the guard of [create_blocks] skips no negative count. *)
Theorem weyr_stabilized_nonincreasing (A : Matrix) (eigenval : F)
    (fuel : nat) :
  square A -> ((rows A).+1 < fuel)%N ->
  exists r w,
    [/\ stabilize_ranks fuel A eigenval = Ok r, weyr r = Ok w,
        forall i, (i < size w)%N -> 0 <= nth 0 w i
      & forall i, (0 < i < size w)%N -> 0 <= nth 0 w i.-1 - nth 0 w i].
Proof.
move=> sqA ltfuel; set rk := rho (shifted A eigenval).
have [k [/andP[k_gt0 lek] stopk _ ->]] :=
  stabilize_ranks_spec eigenval sqA ltfuel.
have rk_le : forall p, (rk p.+1 <= rk p)%N by move=> p; apply: rho_le.
have rk_cvx : forall p, (rk p.+1 + rk p.+1 <= rk p + rk p.+2)%N.
  by move=> p; apply: rho_convex.
exists (ranks rk k.+1), (weyr_of_ranks rk k); rewrite weyrE.
rewrite (size_weyr_of_ranks rk k); split=> // [i|[|i] //=]; rewrite ltnS => lti.
  by rewrite (nth_weyr_of_ranks rk_le rk_cvx k_gt0 stopk).
rewrite !(nth_weyr_of_ranks rk_le rk_cvx k_gt0 stopk) ?(ltnW lti) //.
by rewrite subr_ge0 lez_nat drop_at_le.
Qed.

Section BlocksOfWeyr.

Variable s : seq nat.
Hypothesis sorted_s : sorted geq s.
Hypothesis last_s : last 0%N s = 0%N.

Let rk (i : nat) : nat := sumn (drop i s).

Lemma suffix_step (i : nat) : rk i = (nth 0%N s i + rk i.+1)%N.
Proof.
rewrite /rk; case: (ltnP i (size s)) => [lti|lei].
  by rewrite (drop_nth 0%N lti).
by rewrite !drop_oversize ?nth_default // (leq_trans lei).
Qed.

Lemma suffix_drop_at (i : nat) : drop_at rk i = nth 0%N s i.
Proof. by rewrite /drop_at [rk i]suffix_step addnK. Qed.

Lemma suffix_le (p : nat) : (rk p.+1 <= rk p)%N.
Proof. by rewrite [rk p]suffix_step leq_addl. Qed.

Lemma nth_sorted_le (p : nat) : (nth 0%N s p.+1 <= nth 0%N s p)%N.
Proof.
case: (ltnP p.+1 (size s)) => [ltp|lep]; last by rewrite nth_default.
by have /(sortedP 0%N) /(_ p ltp) := sorted_s.
Qed.

Lemma suffix_convex (p : nat) : (rk p.+1 + rk p.+1 <= rk p + rk p.+2)%N.
Proof.
rewrite [rk p]suffix_step [X in (X + _ <= _)%N]suffix_step.
by rewrite -!addnA [(rk p.+2 + _)%N]addnC leq_add2r nth_sorted_le.
Qed.

Lemma total_blocks_of_weyr (eigenval : F) :
  sumn [seq rows M | M <- block_mats [seq Posz x | x <- s] eigenval]
  = sumn s.
Proof.
rewrite rows_block_mats size_diffs size_map /range subn0.
set k := (size s).-1.
have dk : drop_at rk k = 0%N by rewrite suffix_drop_at /k nth_last.
have rkk : rk k = 0%N.
  by rewrite suffix_step -suffix_drop_at dk /rk drop_oversize // /k leqSpred.
have rk0 : rk 0 = sumn s by rewrite /rk drop0.
rewrite -[RHS]rk0 -(sum_drop_at suffix_le k) rkk addn0.
rewrite -(abel_drop_at suffix_le suffix_convex) dk muln0 addn0.
congr sumn; apply/eq_in_map => i; rewrite mem_iota add0n /= => ltik.
congr (_ * _)%N; rewrite nth_diffs ?size_map -?ltn_predRL //.
rewrite !(nth_map 0%N) ?(leq_trans ltik) ?leq_pred // -?ltn_predRL //.
rewrite subzn ?nth_sorted_le // /block_count ltz_nat /= !suffix_drop_at.
by case: (_ - _)%N.
Qed.

End BlocksOfWeyr.

Lemma block_mats_rows_pos (w : seq int) (eigenval : F) :
  all (fun M => 0 < rows M)%N (block_mats w eigenval).
Proof. by apply/allP => M /flattenP[l /mapP[i _ ->]] /nseqP[-> _]. Qed.

(** For a non-increasing list [w] of natural numbers that ends with 0 (a
    Weyr characteristic with the sentinel), [create_blocks] returns [None]
    when the entries are all 0 and otherwise a square matrix whose
    dimension is the sum of the entries. *)
Theorem create_blocks_dims (s : seq nat) (eigenval : F) :
  sorted geq s -> last 0%N s = 0%N ->
  if sumn s == 0%N
  then create_blocks [seq Posz x | x <- s] eigenval = Ok VNone
  else exists M,
         [/\ create_blocks [seq Posz x | x <- s] eigenval = Ok (VMat M),
             rows M = sumn s & cols M = sumn s].
Proof.
move=> sorted_s last_s; rewrite create_blocks_mats.
have := total_blocks_of_weyr sorted_s last_s eigenval.
have := all_square_block_mats [seq Posz x | x <- s] eigenval.
have := block_mats_rows_pos [seq Posz x | x <- s] eigenval.
case: (block_mats _ _) => [_ _ /= <- //|M0 ms /= /andP[pos0 _]].
move=> /andP[sq0 sqms] tot.
have [M [eqM sqM rowsM]] := many_summand_squares sq0 sqms.
rewrite -tot addn_eq0 eqn0Ngt pos0 /=.
by exists M; split; rewrite -?(eqP sqM) // rowsM.
Qed.

Lemma eigenvalue_geigenspace (n : nat) (g : 'M[F]_n) (e : F) :
  eigenvalue g e -> (0 < \rank (geigenspace g e))%N.
Proof.
rewrite /eigenvalue -mxrank_eq0 -lt0n => rk_pos.
exact: leq_trans rk_pos (mxrankS (eigenspace_sub_geigen _ _)).
Qed.

(** For an eigenvalue [e] of the square matrix [A] of dimension [n], the
    three steps of the loop of [jordan_form] end in a square matrix of at
    least one row, whose dimension is [n] minus the last (stabilized) rank:
    the dimension of the generalized eigenspace of [e]. *)
Theorem eigenvalue_block_dims (A : Matrix) (e : F) (fuel : nat) :
  square A -> ((rows A).+1 < fuel)%N ->
  eigenvalue (mx_of (rows A) (rows A) A) e ->
  exists r w M,
    [/\ stabilize_ranks fuel A e = Ok r, weyr r = Ok w,
        create_blocks w e = Ok (VMat M),
        (0 < rows M)%N /\ rows M = cols M
      & Posz (rows M) = Posz (rows A) - nth 0 r (size r).-1
        /\ rows M = \rank (geigenspace (mx_of (rows A) (rows A) A) e)].
Proof.
move=> sqA ltfuel /eigenvalue_geigenspace geig_pos.
have [M [eqM sqM rowsM]] := block_result_spec sqA ltfuel geig_pos.
have [k [/andP[k_gt0 lek] stopk _ eq_r]] := stabilize_ranks_spec e sqA ltfuel.
have lekn : (k.-1 <= rows A)%N by rewrite -ltnS prednK.
move: eqM; rewrite /block_result eq_r /= weyrE /= => eqM.
exists (ranks (rho (shifted A e)) k.+1),
  (rcons (diffs (ranks (rho (shifted A e)) k.+1)) 0), M.
rewrite weyrE size_ranks /= nth_ranks // -(eqP sqM) rowsM; split=> //.
split=> //; rewrite shifted_geigenspace (rho_stop k_gt0 stopk lekn).
rewrite -subzn // -[X in (_ <= X)%N](rho0 (shifted A e)).
exact: rho_le_trans.
Qed.

Lemma jordan_shape_JB (e : F) (n : nat) : jordan_shape (pred1 e) (JB e n).
Proof.
split=> [|i lti|i lti|i j lti ltj neq_ij neq_ji]; rewrite /= ?get_mk //.
- by rewrite /square /=.
- by rewrite /jordan_entry eqxx /=.
- by apply: ltnW.
- by rewrite /jordan_entry (ltn_eqF (ltnSn i)) eqxx eqxx orbT.
- by rewrite /jordan_entry (negbTE neq_ij) (negbTE neq_ji).
Qed.

Lemma jordan_shape_sub (P Q : pred F) (M : Matrix) :
  (forall x, P x -> Q x) -> jordan_shape P M -> jordan_shape Q M.
Proof. by move=> PQ [sqM diag sup off]; split=> // i /diag /PQ. Qed.

Lemma jordan_shape_block_diag (P : pred F) (A B : Matrix) :
  jordan_shape P A -> jordan_shape P B -> jordan_shape P (block_diag A B).
Proof.
move=> [sqA diagA supA offA] [sqB diagB supB offB].
have cA := esym (eqP sqA); have cB := esym (eqP sqB).
have getE i j : (i < rows A + rows B)%N -> (j < rows A + rows B)%N ->
    get (block_diag A B) i j = block_entry A B i j.
  by move=> lti ltj; rewrite get_mk // cA cB.
split; rewrite /= ?square_block_diag //.
- move=> i lti; rewrite getE // /block_entry cA.
  case: (ltnP i (rows A)) => [ltiA|leAi]; first exact: diagA.
  by apply: diagB; rewrite ltn_subLR.
- move=> i lti; rewrite getE // ?(ltnW lti) // /block_entry cA.
  case: (ltnP i (rows A)) => [ltiA|leAi].
    by case: (ltnP i.+1 (rows A)) => [/supA|_] //; rewrite eqxx.
  rewrite ltnNge (leq_trans leAi) //= subSn //.
  by apply: supB; rewrite -subSn // ltn_subLR // (leq_trans leAi).
- move=> i j lti ltj neq_ij neq_ji; rewrite getE // /block_entry cA.
  case: (ltnP i (rows A)) => [ltiA|leAi];
    case: (ltnP j (rows A)) => [ltjA|leAj] //; first exact: offA.
  apply: offB; rewrite ?ltn_subLR //.
    by apply: contra neq_ij => /eqP eq_sub; rewrite -(subnK leAi) eq_sub subnK.
  apply: contra neq_ji; rewrite -subSn // => /eqP eq_sub.
  by rewrite -(subnK leAj) eq_sub subnK // (leq_trans leAi).
Qed.

Lemma foldl_direct_summand_shape (P : pred F) (A : Matrix)
    (ms : seq Matrix) :
  jordan_shape P A -> (forall B, B \in ms -> jordan_shape P B) ->
  exists2 M, foldl_result direct_summand (VMat A) [seq VMat B | B <- ms]
             = Ok (VMat M) & jordan_shape P M.
Proof.
elim: ms A => [|B ms IH] A shA sh_ms /=; first by exists A.
have shB : jordan_shape P B by apply: sh_ms; rewrite mem_head.
have [sqA _ _ _] := shA; have [sqB _ _ _] := shB.
rewrite direct_summand_square //=; apply: IH.
  exact: jordan_shape_block_diag.
by move=> C C_in; apply: sh_ms; rewrite inE C_in orbT.
Qed.

Lemma block_mats_shape (w : seq int) (e : F) (M : Matrix) :
  M \in block_mats w e -> jordan_shape (pred1 e) M.
Proof.
by move=> /flattenP[l /mapP[i _ ->]] /nseqP[-> _]; apply: jordan_shape_JB.
Qed.

(** [create_blocks] returns [None] or a matrix in Jordan form for the
    eigenvalue: square, the eigenvalue on the diagonal, 0 or 1 on the
    superdiagonal and 0 elsewhere. *)
Theorem create_blocks_jordan_shape (w : seq int) (e : F) :
  create_blocks w e = Ok VNone
  \/ exists2 M, create_blocks w e = Ok (VMat M) & jordan_shape (pred1 e) M.
Proof.
rewrite create_blocks_mats; have := @block_mats_shape w e.
case: (block_mats w e) => [_|M0 ms sh_ms]; [by left | right].
rewrite [map _ _]/= many_summand_cons; apply: foldl_direct_summand_shape.
  by apply: sh_ms; rewrite mem_head.
by move=> B B_in; apply: sh_ms; rewrite inE B_in orbT.
Qed.

Lemma create_blocks_shape_ok (w : seq int) (e : F) (M : Matrix) :
  create_blocks w e = Ok (VMat M) -> jordan_shape (pred1 e) M.
Proof.
rewrite create_blocks_mats; have := @block_mats_shape w e.
case: (block_mats w e) => [|M0 ms] // sh_ms.
rewrite [map _ _]/= many_summand_cons.
have [] := @foldl_direct_summand_shape (pred1 e) M0 ms.
- by apply: sh_ms; rewrite mem_head.
- by move=> B B_in; apply: sh_ms; rewrite inE B_in orbT.
- by move=> M' -> shM' [<-].
Qed.

Lemma block_result_shape (fuel : nat) (A : Matrix) (e : F) (M : Matrix) :
  block_result fuel A e = Ok (VMat M) -> jordan_shape (pred1 e) M.
Proof.
rewrite /block_result; case: (stabilize_ranks fuel A e) => //= r.
by rewrite weyrE /=; apply: create_blocks_shape_ok.
Qed.

(** For a square matrix of dimension at least 1 whose eigenvalues the
    collaborator enumerates exactly, the matrix returned by [jordan_form]
    is in Jordan form: every diagonal entry is an eigenvalue of [A], every
    superdiagonal entry is 0 or 1, and all the other entries are 0. *)
Theorem jordan_form_jordan_shape (fuel : nat) (A : Matrix)
    (evs : seq (F * nat)) :
  square A -> (0 < rows A)%N -> eigenvals A = Ok evs ->
  eigenvals_exact A evs -> ((rows A).+1 < fuel)%N ->
  exists2 M, jordan_form fuel A = Ok (VMat M)
           & jordan_shape (eigenvalue (mx_of (rows A) (rows A) A)) M.
Proof.
move=> sqA n_gt0 eq_evs exact_evs ltfuel.
have [uniq_evs /allP pos_evs char_A] := exact_evs.
pose P := eigenvalue (mx_of (rows A) (rows A) A).
pose ms := [seq block_matrix fuel A kv.1 | kv <- evs].
have sh_ms : forall B, B \in ms -> jordan_shape P B.
  move=> B /mapP[kv kv_in ->].
  have [eqB _ _] := block_matrix_spec sqA ltfuel exact_evs kv_in.
  apply: jordan_shape_sub (block_result_shape eqB) => x /eqP->.
  by rewrite /P eigenvalue_root_char char_A root_prod_factors // pos_evs.
have ms_neq0 : ms != [::].
  have := sum_rank_geigenspace uniq_evs char_A.
  rewrite /ms; case: (evs) => //=; rewrite big_nil => eq0.
  by rewrite -eq0 in n_gt0.
rewrite /jordan_form eq_evs /= jordan_form_vals /= jordan_form_blocks => [e|].
  move=> /mapP[kv kv_in ->]; exists (block_matrix fuel A kv.1).
  by have [] := block_matrix_spec sqA ltfuel exact_evs kv_in.
have -> : [seq VMat (block_matrix fuel A e) | e <- [seq kv.1 | kv <- evs]]
          = [seq VMat B | B <- ms] by rewrite /ms -!map_comp.
case: ms sh_ms ms_neq0 => [|M0 [|M1 ms']] // sh_ms _.
  by exists M0; rewrite //=; apply: sh_ms; rewrite mem_head.
rewrite [bind _ _]/= many_summand_cons.
apply: (@foldl_direct_summand_shape P M0 (M1 :: ms')).
  by apply: sh_ms; rewrite mem_head.
by move=> B B_in; apply: sh_ms; rewrite inE B_in orbT.
Qed.

(** [get_super n] is, for every [n], the n x n matrix with 1 at the
    entries [(i, i+1)] and 0 elsewhere; it is the empty matrix for
    [n = 0]. *)
Theorem get_super_entries (n : nat) :
  exists S,
    [/\ get_super n = Ok S, rows S = n, cols S = n, wf S
      & forall i j, (i < n)%N -> (j < n)%N ->
          get S i j = if j == i.+1 then 1 else 0].
Proof.
exists (mk n n super_entry); rewrite get_superE; split=> //.
  exact: wf_mk.
by move=> i j lti ltj; rewrite get_mk // /super_entry eq_sym; case: eqP.
Qed.

(** [jordan_form] passes on the exception of the eigenvalue collaborator,
    and raises [IndexError] at [blocks[0]] when the collaborator returns
    the empty dictionary. *)
Theorem jordan_form_collaborator_edges (fuel : nat) (A : Matrix) :
  (eigenvals A = Ok [::] -> jordan_form fuel A = Raise IndexError)
  /\ (forall e, eigenvals A = Raise e -> jordan_form fuel A = Raise e).
Proof. by split=> [|e]; rewrite /jordan_form => ->. Qed.

(** When the only value the collaborator lists is not an eigenvalue of the
    square matrix [A], [jordan_form] builds no block and returns [None]. *)
Theorem jordan_form_not_eigenvalue (fuel : nat) (A : Matrix) (e : F)
    (m : nat) :
  square A -> (1 < fuel)%N -> eigenvals A = Ok [:: (e, m)] ->
  ~~ eigenvalue (mx_of (rows A) (rows A) A) e ->
  jordan_form fuel A = Ok VNone.
Proof.
move=> sqA ltfuel eq_ev /rho1_not_eigenvalue rk1.
have rk0 := rho0 (shifted A e).
have eq_r : stabilize_ranks fuel A e = Ok (ranks (rho (shifted A e)) 2).
  apply: (@stabilize_loop_run A e 1 0 fuel sqA) => //.
  - by case=> // _; rewrite /stop andbF.
  - by rewrite /stop /= rk0 rk1 eqxx.
by rewrite /jordan_form eq_ev /= eq_r /= rk0 rk1 subrr.
Qed.

Lemma eigenvalue_example : eigenvalue (mx_of 2 2 A_example) 2.
Proof.
have [_ _ char_A] := eigenvals_exact_example.
rewrite eigenvalue_root_char [X in root X _]char_A.
by rewrite (@root_prod_factors [:: (2, 2%N)] (2, 2%N)) ?mem_head.
Qed.

Lemma not_eigenvalue_unit : ~~ eigenvalue (mx_of 1 1 (Mx 1 1 [:: 1])) 0.
Proof.
have -> : mx_of 1 1 (Mx 1 1 [:: 1]) = 1%:M.
  by apply/matrixP => i j; rewrite !mxE !ord1.
rewrite /eigenvalue negbK /eigenspace raddf0 subr0 kermx_eq0 row_free_unit.
exact: unitmx1.
Qed.

End Sympy.

(** ** The theorems at concrete inputs, over the rationals *)



Lemma stabilize_ranks_terminates_witness :
  exists r : seq int,
    [/\ stabilize_ranks 4 (Mx 2 2 [:: 2; 1; 0; 2] : Matrix rat) 2 = Ok r,
        (1 < size r)%N,
        forall p, (p < size r)%N ->
          nth 0 r p
          = Posz (rho (shifted (Mx 2 2 [:: 2; 1; 0; 2] : Matrix rat) 2) p)
      & nth 0 r (size r).-1 = nth 0 r (size r).-2].
Proof.
exact: (@stabilize_ranks_terminates rat (Mx 2 2 [:: 2; 1; 0; 2]) 2 4 isT isT).
Defined.

Lemma stabilize_ranks_nonincreasing_witness :
  exists r : seq int,
    [/\ stabilize_ranks 4 (Mx 2 2 [:: 2; 1; 0; 2] : Matrix rat) 2 = Ok r,
        sorted (fun x y : int => y <= x) r,
        nth 0 r 0 = 2
      & (0 < size r)%N].
Proof.
exact: (@stabilize_ranks_nonincreasing rat (Mx 2 2 [:: 2; 1; 0; 2]) 2 4
          isT isT).
Defined.

Lemma weyr_differences_witness :
  exists w : seq int,
    [/\ weyr [:: 2; 1; 0; 0] = Ok w, size w = 4%N,
        forall p, (0 < p < 4)%N ->
          nth 0 w p.-1
          = nth 0 [:: 2; 1; 0; 0] p.-1 - nth 0 [:: 2; 1; 0; 0] p
      & nth 0 w 3 = 0].
Proof. exact: (@weyr_differences [:: 2; 1; 0; 0] isT). Defined.

Lemma jordan_block_entries_witness :
  exists B : Matrix rat,
    [/\ jordan_block 5 3 = Ok B,
        [/\ rows B = 3%N, cols B = 3%N & wf B],
        forall i j, (i < 3)%N -> (j < 3)%N ->
          get B i j = 5 * (i == j)%:R + (j == i.+1)%:R,
        forall i j, (i < 3)%N -> (j < 3)%N ->
          get B i j = (if i == j then 5 else if j == i.+1 then 1 else 0)
      & 3%N = 1%N -> B = Mx 1 1 [:: 5]].
Proof. exact: (@jordan_block_entries rat 5 3 isT). Defined.

Lemma jordan_form_example_witness :
  jordan_form (fun _ : Matrix rat => Ok [:: (2, 2%N)]) 4
    (Mx 2 2 [:: 2; 1; 0; 2])
  = Ok (VMat (Mx 2 2 [:: 2; 1; 0; 2])).
Proof.
exact: (@jordan_form_example rat (fun _ => Ok [:: (2, 2%N)]) 4 isT erefl).
Defined.

Lemma concat_vec_columns_witness :
  concat_vec [seq Matrix_of_list l | l <- [:: [:: 1; 2]; [:: 3; 4 : rat]]]
  = Ok (mk 2 2 (fun i j => nth 0 (nth [::] [:: [:: 1; 2]; [:: 3; 4]] j) i)).
Proof.
exact: (@concat_vec_columns rat 1 [:: 1; 2] [:: [:: 3; 4]] isT).
Defined.

Lemma direct_summand_square_blocks_witness :
  exists M : Matrix rat,
    [/\ direct_summand (VMat (Mx 1 1 [:: 5])) (VMat (Mx 2 2 [:: 2; 1; 0; 2]))
        = Ok (VMat M),
        rows M = 3%N, cols M = 3%N, wf M
      & forall i j, (i < 3)%N -> (j < 3)%N ->
          get M i j
          = if (i < 1)%N
            then (if (j < 1)%N then get (Mx 1 1 [:: 5]) i j else 0)
            else (if (j < 1)%N then 0
                  else get (Mx 2 2 [:: 2; 1; 0; 2]) (i - 1) (j - 1))].
Proof.
exact: (@direct_summand_square_blocks rat (Mx 1 1 [:: 5])
          (Mx 2 2 [:: 2; 1; 0; 2]) isT isT).
Defined.

Lemma direct_summand_empty_unit_witness :
  direct_summand (VMat (Mx 1 1 [:: 5 : rat])) (VMat (zeros rat 0 0))
  = Ok (VMat (Mx 1 1 [:: 5]))
  /\ direct_summand (VMat (zeros rat 0 0)) (VMat (Mx 1 1 [:: 5]))
     = Ok (VMat (Mx 1 1 [:: 5])).
Proof. exact: (@direct_summand_empty_unit rat (Mx 1 1 [:: 5]) isT isT). Defined.

Lemma many_summand_none_raises_witness :
  many_summand [:: VMat (Mx 1 1 [:: 5 : rat]); VNone _]
  = Raise AttributeError.
Proof.
apply: (@many_summand_none_raises rat
          [:: VMat (Mx 1 1 [:: 5]); VNone _] isT isT) => M.
by rewrite !inE => /orP[/eqP[->]|].
Defined.

Lemma many_summand_square_dims_witness :
  exists M : Matrix rat,
    [/\ many_summand
          [seq VMat B | B <- [:: Mx 1 1 [:: 5]; Mx 2 2 [:: 2; 1; 0; 2]]]
        = Ok (VMat M),
        rows M = 3%N & cols M = 3%N].
Proof.
exact: (@many_summand_square_dims rat (Mx 1 1 [:: 5])
          [:: Mx 2 2 [:: 2; 1; 0; 2]] isT).
Defined.

Lemma stabilize_ranks_nonsquare_witness :
  stabilize_ranks 3 (Mx 1 2 [:: 0; 0 : rat]) 0 = Raise ShapeError.
Proof.
exact: (@stabilize_ranks_nonsquare rat (Mx 1 2 [:: 0; 0]) 0 3 isT isT).
Defined.

Lemma stabilize_ranks_strict_witness :
  exists r : seq int,
    [/\ stabilize_ranks 4 (Mx 2 2 [:: 2; 1; 0; 2] : Matrix rat) 2 = Ok r,
        (1 < size r <= 4)%N,
        forall p, (p < size r)%N -> 0 <= nth 0 r p <= 2,
        forall p, (p.+2 < size r)%N -> nth 0 r p.+1 < nth 0 r p
      & nth 0 r (size r).-1 = nth 0 r (size r).-2].
Proof.
exact: (@stabilize_ranks_strict rat (Mx 2 2 [:: 2; 1; 0; 2]) 2 4 isT isT).
Defined.

Lemma stabilize_ranks_not_eigenvalue_witness :
  [/\ stabilize_ranks 2 (Mx 1 1 [:: 1 : rat]) 0 = Ok [:: 1; 1],
      weyr [:: 1; 1] = Ok [:: 0; 0]
    & create_blocks [:: 0; 0] (0 : rat) = Ok (VNone _)].
Proof.
exact: (@stabilize_ranks_not_eigenvalue rat (Mx 1 1 [:: 1]) 0 2 isT isT
          (not_eigenvalue_unit rat)).
Defined.

Lemma weyr_stabilized_nonincreasing_witness :
  exists (r w : seq int),
    [/\ stabilize_ranks 4 (Mx 2 2 [:: 2; 1; 0; 2] : Matrix rat) 2 = Ok r,
        weyr r = Ok w,
        forall i, (i < size w)%N -> 0 <= nth 0 w i
      & forall i, (0 < i < size w)%N -> 0 <= nth 0 w i.-1 - nth 0 w i].
Proof.
exact: (@weyr_stabilized_nonincreasing rat (Mx 2 2 [:: 2; 1; 0; 2]) 2 4
          isT isT).
Defined.

Lemma create_blocks_dims_witness :
  exists M : Matrix rat,
    [/\ create_blocks [:: 1; 1; 0; 0] 2 = Ok (VMat M),
        rows M = 2%N & cols M = 2%N].
Proof.
exact: (@create_blocks_dims rat [:: 1; 1; 0; 0]%N 2 isT erefl).
Defined.

Lemma eigenvalue_block_dims_witness :
  exists (r w : seq int) (M : Matrix rat),
    [/\ stabilize_ranks 4 (Mx 2 2 [:: 2; 1; 0; 2] : Matrix rat) 2 = Ok r,
        weyr r = Ok w,
        create_blocks w 2 = Ok (VMat M),
        (0 < rows M)%N /\ rows M = cols M
      & Posz (rows M) = 2 - nth 0 r (size r).-1
        /\ rows M
           = \rank (geigenspace
                      (mx_of 2 2 (Mx 2 2 [:: 2; 1; 0; 2] : Matrix rat)) 2)].
Proof.
exact: (@eigenvalue_block_dims rat (Mx 2 2 [:: 2; 1; 0; 2]) 2 4 isT isT
          (eigenvalue_example rat)).
Defined.

Lemma jordan_form_jordan_shape_witness :
  exists2 M : Matrix rat,
    jordan_form (fun _ => Ok [:: (2, 2%N)]) 4 (Mx 2 2 [:: 2; 1; 0; 2])
    = Ok (VMat M)
  & jordan_shape (eigenvalue (mx_of 2 2 (Mx 2 2 [:: 2; 1; 0; 2]))) M.
Proof.
exact: (@jordan_form_jordan_shape rat (fun _ => Ok [:: (2, 2%N)]) 4
          (Mx 2 2 [:: 2; 1; 0; 2]) [:: (2, 2%N)] isT isT erefl
          (eigenvals_exact_example rat) isT).
Defined.

Lemma jordan_form_not_eigenvalue_witness :
  jordan_form (fun _ => Ok [:: (0, 1%N)]) 2 (Mx 1 1 [:: 1 : rat])
  = Ok (VNone _).
Proof.
exact: (@jordan_form_not_eigenvalue rat (fun _ => Ok [:: (0, 1%N)]) 2
          (Mx 1 1 [:: 1]) 0 1 isT isT erefl (not_eigenvalue_unit rat)).
Defined.

